(** * nestjs-cache-mediator: the cache-first coordinator

    A shallow embedding of [CacheFirstService] (cache-first.service.ts),
    [CacheFirstProcessor] (cache-first.processor.ts) and the [ICacheDriver]
    interface.  An [async] method is a tree of the calls it awaits: every
    [await] is a node whose continuation receives the settled promise, so
    that the same method can be run against an arbitrary collaborator
    (sequentially, one caller) or interleaved with other callers at its
    suspension points. *)

From Stdlib Require Import DecimalString.
From stdpp Require Import base strings list gmap pretty.

Set Default Proof Using "Type".

(** ** Values thrown and promises settled *)

(** What a [throw] carries.  [Error] and [InternalServerErrorException] are
    constructed by the service and the processor themselves; [SyntaxError]
    and [TypeError] come from [JSON.parse] and [JSON.stringify]; [External]
    is any rejection of a collaborator (cache driver, queue, handler). *)
Inductive exn : Type :=
  | Error (message : string)
  | InternalServerErrorException (message : string)
  | SyntaxError (message : string)
  | TypeError (message : string)
  | External (name : string).

(** A settled promise. *)
Inductive outcome (A : Type) : Type :=
  | Resolved (a : A)
  | Rejected (e : exn).
Arguments Resolved {A} a.
Arguments Rejected {A} e.

(** ** interfaces/cache-job.interface.ts and the queue's job objects *)

Record CacheJobPayload (P : Type) : Type := mkPayload {
  jobType : string;
  params : P;
  cacheKey : string
}.
Arguments mkPayload {P} _ _ _.
Arguments jobType {P} _.
Arguments params {P} _.
Arguments cacheKey {P} _.

(** The options object the service passes to [Queue.add]. *)
Record JobOptions (number : Type) : Type := mkOpts {
  jobId : string;
  removeOnComplete : bool;
  timeout : number
}.
Arguments mkOpts {number} _ _ _.
Arguments jobId {number} _.
Arguments removeOnComplete {number} _.
Arguments timeout {number} _.

(** Modelled from the spec: the JobHandle of section 6, the job object
    the queue hands out (its class belongs to the queue package).
    [job_ref] stands for the identity of the scheduled job: two jobs
    created one after the other under the same [jobId] are different
    jobs. *)
Record Job (P number : Type) : Type := mkJob {
  job_ref : nat;
  job_name : string;
  job_data : CacheJobPayload P;
  job_opts : JobOptions number
}.
Arguments mkJob {P number} _ _ _ _.
Arguments job_ref {P number} _.
Arguments job_name {P number} _.
Arguments job_data {P number} _.
Arguments job_opts {P number} _.

(** [if (cached)] on a [string | null]: [null] and the empty string are
    falsy, every other string is truthy. *)
Definition truthy (cached : option string) : bool :=
  match cached with
  | Some (String _ _) => true
  | _ => false
  end.

(** The type parameters [P] and [T] of the service ([any] at run time),
    JavaScript's [number], and the pieces of the JavaScript runtime the
    service calls. *)
Class Runtime : Type := {
  Params : Type;
  Result : Type;
  number : Type;
  (** the JSON grammar on non-empty texts ([None]: not valid JSON) *)
  json_decode : string -> option Result;
  (** [JSON.stringify] ([None]: it throws, e.g. on a cyclic object) *)
  json_encode : Result -> option string;
  (** the text of a number in a template literal *)
  number_toString : number -> string;
  (** whatever the registered handlers read and write when they run *)
  Ambient : Type
}.

Section Coordinator.
Context `{R : Runtime}.

(** ** The calls a method awaits *)

Inductive Op : Type -> Type :=
  (* ICacheDriver *)
  | CacheGet (key : string) : Op (option string)
  | CacheSet (key value : string) (ttl : number) : Op unit
  | CacheDel (key : string) : Op unit
  (* Queue *)
  | QueueGetJob (id : string) : Op (option (Job Params number))
  | QueueAdd (name : string) (data : CacheJobPayload Params)
             (opts : JobOptions number) : Op (Job Params number)
  (* Job *)
  | JobFinished (job : Job Params number) : Op Result.

(** An [async] method body.  [LoggerError] is [this.logger.error(msg, err)],
    which is synchronous and returns nothing. *)
Inductive Prog (A : Type) : Type :=
  | Ret (a : A)
  | Throw (e : exn)
  | Await {X : Type} (op : Op X) (k : outcome X -> Prog A)
  | LoggerError (message : string) (err : exn) (k : Prog A).
Arguments Ret {A} a.
Arguments Throw {A} e.
Arguments Await {A X} op k.
Arguments LoggerError {A} message err k.

(** [await op]: the value of a resolved promise, or its rejection thrown. *)
Definition await {X : Type} (op : Op X) : Prog X :=
  Await op (fun o => match o with
                     | Resolved x => Ret x
                     | Rejected e => Throw e
                     end).

(** Sequencing: a [throw] skips the rest. *)
Fixpoint bind {A B : Type} (p : Prog A) (f : A -> Prog B) : Prog B :=
  match p with
  | Ret a => f a
  | Throw e => Throw e
  | Await op k => Await op (fun o => bind (k o) f)
  | LoggerError m e k => LoggerError m e (bind k f)
  end.

(** [try { p } catch (err) { h err }]. *)
Fixpoint try_catch {A : Type} (p : Prog A) (h : exn -> Prog A) : Prog A :=
  match p with
  | Ret a => Ret a
  | Throw e => h e
  | Await op k => Await op (fun o => try_catch (k o) h)
  | LoggerError m e k => LoggerError m e (try_catch k h)
  end.

(** A synchronous call that returns or throws. *)
Definition lift {A : Type} (o : outcome A) : Prog A :=
  match o with
  | Resolved a => Ret a
  | Rejected e => Throw e
  end.

Notation "x <- p ;; q" := (bind p (fun x => q))
  (at level 20, p at level 99, q at level 200, only parsing).
Notation "p ;;; q" := (bind p (fun _ => q))
  (at level 20, q at level 200, only parsing).

(** [JSON.parse]: the empty text is never valid JSON. *)
Definition JSON_parse (text : string) : outcome Result :=
  match text with
  | EmptyString => Rejected (SyntaxError "Unexpected end of JSON input")
  | _ => match json_decode text with
         | Some v => Resolved v
         | None => Rejected (SyntaxError "Unexpected token in JSON")
         end
  end.

Definition JSON_stringify (v : Result) : outcome string :=
  match json_encode v with
  | Some s => Resolved s
  | None => Rejected (TypeError "Converting circular structure to JSON")
  end.

(** ** cache-first.service.ts *)

(** [cacheFirst], lines 58-66: the cache check.  [Some v] is the early
    [return JSON.parse(cached)]; [None] falls through to line 68. *)
Definition checkCache (cacheKey : string) : Prog (option Result) :=
  cached <- await (CacheGet cacheKey) ;;
  if truthy cached then
    try_catch
      (v <- lift (JSON_parse (default EmptyString cached)) ;; Ret (Some v))
      (fun err =>
         LoggerError ("Error parsing cache for key " +:+ cacheKey) err
           (Ret None))
  else Ret None.

(** [cacheFirst], lines 83-86, the [catch] block around [add]: look the
    job up once more. *)
Definition recoverJob (cacheKey : string) : Prog (Job Params number) :=
  bullJob <- await (QueueGetJob cacheKey) ;;
  match bullJob with
  | Some job => Ret job
  | None =>
      Throw (InternalServerErrorException "Failed to schedule cache job")
  end.

(** [cacheFirst], lines 76-87: schedule the job, with the cache key as its
    job id. *)
Definition enqueueJob (cacheKey : string) (jobTTL : number)
    (jobType : string) (params : Params) : Prog (Job Params number) :=
  let payload := mkPayload jobType params cacheKey in
  try_catch
    (await (QueueAdd "cacheFirstJob" payload (mkOpts cacheKey true jobTTL)))
    (fun error => recoverJob cacheKey).

(** [cacheFirst], lines 68-88: find the job of this key or schedule it. *)
Definition scheduleJob (cacheKey : string) (jobTTL : number)
    (jobType : string) (params : Params) : Prog (Job Params number) :=
  bullJob <- await (QueueGetJob cacheKey) ;;
  match bullJob with
  | Some job => Ret job
  | None => enqueueJob cacheKey jobTTL jobType params
  end.

(** [cacheFirst], lines 90-97: wait for job completion. *)
Definition awaitJob (cacheKey : string) (jobTTL : number)
    (bullJob : Job Params number) : Prog Result :=
  try_catch
    (await (JobFinished bullJob))
    (fun err =>
       LoggerError ("Job for key " +:+ cacheKey +:+ " failed or timed out")
         err
         (Throw (InternalServerErrorException
                   ("Job timed out after " +:+ number_toString jobTTL
                      +:+ " ms")))).

(** [cacheFirst], lines 99-104: cache the result. *)
Definition populateCache (cacheKey : string) (redisTTL : number)
    (result : Result) : Prog unit :=
  try_catch
    (text <- lift (JSON_stringify result) ;;
     await (CacheSet cacheKey text redisTTL))
    (fun err =>
       LoggerError ("Error setting cache for key " +:+ cacheKey) err
         (Ret tt)).

(** [cacheFirst], lines 90-105: from the job to the returned result. *)
Definition completeWith (cacheKey : string) (redisTTL jobTTL : number)
    (bullJob : Job Params number) : Prog Result :=
  result <- awaitJob cacheKey jobTTL bullJob ;;
  populateCache cacheKey redisTTL result ;;;
  Ret result.

(** [cacheFirst], lines 68-105: everything after the cache check. *)
Definition onMiss (cacheKey : string) (redisTTL jobTTL : number)
    (jobType : string) (params : Params) : Prog Result :=
  bullJob <- scheduleJob cacheKey jobTTL jobType params ;;
  completeWith cacheKey redisTTL jobTTL bullJob.

Definition cacheFirst (cacheKey : string) (redisTTL jobTTL : number)
    (jobType : string) (params : Params) : Prog Result :=
  hit <- checkCache cacheKey ;;
  match hit with
  | Some v => Ret v
  | None => onMiss cacheKey redisTTL jobTTL jobType params
  end.

Definition warmCacheForKey (cacheKey : string) (redisTTL jobTTL : number)
    (jobType : string) (params : Params) : Prog Result :=
  await (CacheDel cacheKey) ;;;
  cacheFirst cacheKey redisTTL jobTTL jobType params.

(** ** One caller against arbitrary collaborators *)

(** The cache driver, the queue and its jobs as one state machine: every
    call settles its promise and moves the world. *)
Record Env : Type := mkEnv {
  World : Type;
  perform : forall X : Type, Op X -> World -> outcome X * World
}.

(** What a run did, in order. *)
Inductive event : Type :=
  | Called {X : Type} (op : Op X) (o : outcome X)
  | Logged (message : string) (err : exn).

Record Run (W A : Type) : Type := mkRun {
  settled : outcome A;
  world : W;
  trace : list event
}.
Arguments mkRun {W A} _ _ _.
Arguments settled {W A} _.
Arguments world {W A} _.
Arguments trace {W A} _.

(** [after evs r]: the run [r], preceded by the events [evs]. *)
Definition after {W A : Type} (evs : list event) (r : Run W A) : Run W A :=
  mkRun (settled r) (world r) (evs ++ trace r).

Fixpoint run (E : Env) {A : Type} (p : Prog A) (w : World E) : Run (World E) A :=
  match p with
  | Ret a => mkRun (Resolved a) w []
  | Throw e => mkRun (Rejected e) w []
  | Await op k =>
      let '(o, w1) := perform E _ op w in
      after [Called op o] (run E (k o) w1)
  | LoggerError m e k => after [Logged m e] (run E k w)
  end.

Definition is_cache_set (ev : event) : bool :=
  match ev with
  | Called (CacheSet _ _ _) _ => true
  | _ => false
  end.

Definition is_queue_call (ev : event) : bool :=
  match ev with
  | Called (QueueGetJob _) _ | Called (QueueAdd _ _ _) _ => true
  | _ => false
  end.

Definition is_job_wait (ev : event) : bool :=
  match ev with
  | Called (JobFinished _) _ => true
  | _ => false
  end.

(** [job.finished()] rejected: the job failed or timed out. *)
Definition wait_failed (ev : event) : bool :=
  match ev with
  | Called (JobFinished _) (Rejected _) => true
  | _ => false
  end.

(** The value [job.finished()] resolved with, if [ev] is that. *)
Definition wait_result (ev : event) : option Result :=
  match ev with
  | Called op o =>
      match op in Op X return outcome X -> option Result with
      | JobFinished _ => fun o => match o with
                                  | Resolved v => Some v
                                  | Rejected _ => None
                                  end
      | _ => fun _ => None
      end o
  | Logged _ _ => None
  end.

(** The error [job.finished()] rejected with, if [ev] is that. *)
Definition wait_error (ev : event) : option exn :=
  match ev with
  | Called (JobFinished _) (Rejected e) => Some e
  | _ => None
  end.

(** The error [cacheDriver.set] rejected with, if [ev] is that. *)
Definition set_error (ev : event) : option exn :=
  match ev with
  | Called (CacheSet _ _ _) (Rejected e) => Some e
  | _ => None
  end.

(** The error [cacheDriver.get] rejected with, if [ev] is that. *)
Definition get_error (ev : event) : option exn :=
  match ev with
  | Called (CacheGet _) (Rejected e) => Some e
  | _ => None
  end.

(** The error [cacheQueue.getJob] rejected with, if [ev] is that. *)
Definition lookup_error (ev : event) : option exn :=
  match ev with
  | Called (QueueGetJob _) (Rejected e) => Some e
  | _ => None
  end.

(** The arguments of [cacheQueue.add], if [ev] is a call of it. *)
Definition add_call (ev : event)
    : option (string * CacheJobPayload Params * JobOptions number) :=
  match ev with
  | Called (QueueAdd name data opts) _ => Some (name, data, opts)
  | _ => None
  end.

(** The arguments of [cacheDriver.set], if [ev] is a call of it. *)
Definition set_call (ev : event) : option (string * string * number) :=
  match ev with
  | Called (CacheSet key value ttl) _ => Some (key, value, ttl)
  | _ => None
  end.

(** The key of [cacheDriver.get], if [ev] is a call of it. *)
Definition get_call (ev : event) : option string :=
  match ev with
  | Called (CacheGet key) _ => Some key
  | _ => None
  end.

End Coordinator.

Arguments Ret {R A} a.
Arguments Throw {R A} e.
Arguments Await {R A X} op k.
Arguments LoggerError {R A} message err k.
Arguments mkRun {R W A} _ _ _.
Arguments JSON_parse {R} text : simpl never.
Arguments JSON_stringify {R} v : simpl never.
Arguments settled {R W A} _.
Arguments world {R W A} _.
Arguments trace {R W A} _.

(** ** The handler registry and cache-first.processor.ts *)

Section Processor.
Context `{R : Runtime}.

(** [CacheJobHandler<P, T> = (params: P) => Promise<T>]: an effectful
    function; its promise resolves or rejects. *)
Definition CacheJobHandler : Type :=
  Params -> Ambient -> outcome Result * Ambient.

(** [CacheFirstService.jobHandlers], a [Map<string, CacheJobHandler>]. *)
Abbreviation Registry := (gmap string CacheJobHandler).

Definition registerHandler (jobType : string) (handler : CacheJobHandler)
    (jobHandlers : Registry) : Registry :=
  <[jobType := handler]> jobHandlers.

Definition getHandler (jobType : string) (jobHandlers : Registry)
    : option CacheJobHandler :=
  jobHandlers !! jobType.

(** What one run of the processor did: the promise it settled, the state
    it left, and the handler calls it made. *)
Record Processed : Type := mkProcessed {
  returned : outcome Result;
  ambient_after : Ambient;
  handler_calls : list (string * Params)
}.

Definition handleCacheFirstJob (jobHandlers : Registry)
    (job : Job Params number) (s : Ambient) : Processed :=
  let '(mkPayload jobType params cacheKey) := job_data job in
  match getHandler jobType jobHandlers with
  | None =>
      mkProcessed
        (Rejected (Error ("No handler registered for job type: " +:+ jobType)))
        s []
  | Some handler =>
      match handler params s with
      | (Resolved result, s') =>
          (* logger.log; return result *)
          mkProcessed (Resolved result) s' [(jobType, params)]
      | (Rejected err, s') =>
          (* logger.error; throw err *)
          mkProcessed (Rejected err) s' [(jobType, params)]
      end
  end.

(** ** The work dispatcher *)

(** Modelled from the spec: the lifecycle of a job (section 3): scheduled
    and not yet complete, completed with a result, or failed. *)
Inductive JobState : Type :=
  | Waiting
  | Completed (v : Result)
  | Failed (e : exn).

(** Modelled from the spec: the dispatcher's record of a job (section 3,
    InFlightJob).  The queue implementation is an external package; only
    its calls appear in the sources.  [entry_stored] tells whether the job
    can still be looked up by its id. *)
Record JobEntry : Type := mkEntry {
  entry_job : Job Params number;
  entry_state : JobState;
  entry_stored : bool
}.

Abbreviation Queue := (list JobEntry).

(** Modelled from the spec: the entry that holds job id [id], if any
    (the missing queue's lookup by id). *)
Definition holds (id : string) (e : JobEntry) : bool :=
  entry_stored e && bool_decide (jobId (job_opts (entry_job e)) = id).

(** Modelled from the spec: [lookup(jobId) -> JobHandle or absent]
    (section 6; the missing [Queue.getJob]). *)
Definition getJob (id : string) (q : Queue) : option (Job Params number) :=
  entry_job <$> List.find (holds id) q.

(** Modelled from the spec: [enqueue(jobId, payload) -> JobHandle, fails
    with DuplicateIdError if jobId already has an active job] (section 6;
    the missing [Queue.add]).  The new job is referred to by its position. *)
Definition add (name : string) (data : CacheJobPayload Params)
    (opts : JobOptions number) (q : Queue)
    : outcome (Job Params number) * Queue :=
  match getJob (jobId opts) q with
  | Some _ => (Rejected (External "DuplicateIdError"), q)
  | None =>
      let job := mkJob (length q) name data opts in
      (Resolved job, q ++ [mkEntry job Waiting true])
  end.

(** Modelled from the spec: [JobHandle.awaitCompletion] (section 6; the
    missing [Job.finished]): the outcome of the job once it has settled,
    [None] while the promise is pending.  A pending wait can also run out
    of time: that is [expire] below. *)
Definition finished (job : Job Params number) (q : Queue)
    : option (outcome Result) :=
  match q !! job_ref job with
  | Some e =>
      match entry_state e with
      | Waiting => None
      | Completed v => Some (Resolved v)
      | Failed err => Some (Rejected err)
      end
  | None => None
  end.

(** Modelled from the spec: a job that settles leaves the dispatcher
    (section 3: removed after completion, not retained); a completed job
    does so because the service asks for [removeOnComplete]. *)
Definition settle (o : outcome Result) (e : JobEntry) : JobEntry :=
  match o with
  | Resolved v =>
      mkEntry (entry_job e) (Completed v)
        (negb (removeOnComplete (job_opts (entry_job e))))
  | Rejected err => mkEntry (entry_job e) (Failed err) false
  end.

(** ** The whole system: cache driver, dispatcher, worker *)

(** interfaces/cache-driver.interface.ts: an implementation of
    [ICacheDriver] with its state. *)
Class ICacheDriver : Type := {
  Store : Type;
  get : string -> Store -> outcome (option string) * Store;
  set : string -> string -> number -> Store -> outcome unit * Store;
  del : string -> Store -> outcome unit * Store
}.

Context `{D : ICacheDriver}.
Variable jobHandlers : Registry.

Record System : Type := mkSystem {
  store : Store;
  queue : Queue;
  ambient : Ambient;
  invocations : list (string * Params)
}.

(** Modelled from the spec: the worker takes the waiting job [ref], runs
    the processor on it (section 4.3) and settles the job with what the
    processor returned or threw. *)
Definition work (ref : nat) (w : System) : option System :=
  match queue w !! ref with
  | Some e =>
      match entry_state e with
      | Waiting =>
          let r := handleCacheFirstJob jobHandlers (entry_job e) (ambient w) in
          Some (mkSystem (store w)
                  (alter (settle (returned r)) ref (queue w))
                  (ambient_after r)
                  (invocations w ++ handler_calls r))
      | _ => None
      end
  | None => None
  end.

(** The answer of the system to a call, [None] while its promise is
    pending. *)
Definition respond {X : Type} (op : Op X) (w : System)
    : option (outcome X * System) :=
  match op in Op X return option (outcome X * System) with
  | CacheGet key =>
      let '(o, s) := get key (store w) in
      Some (o, mkSystem s (queue w) (ambient w) (invocations w))
  | CacheSet key value ttl =>
      let '(o, s) := set key value ttl (store w) in
      Some (o, mkSystem s (queue w) (ambient w) (invocations w))
  | CacheDel key =>
      let '(o, s) := del key (store w) in
      Some (o, mkSystem s (queue w) (ambient w) (invocations w))
  | QueueGetJob id => Some (Resolved (getJob id (queue w)), w)
  | QueueAdd name data opts =>
      let '(o, q) := add name data opts (queue w) in
      Some (o, mkSystem (store w) q (ambient w) (invocations w))
  | JobFinished job =>
      match finished job (queue w) with
      | Some o => Some (o, w)
      | None => None
      end
  end.

(** One caller alone: while it waits for its job, the worker runs it.  A
    wait that can never end is cut off. *)
Definition serve (X : Type) (op : Op X) (w : System) : outcome X * System :=
  let w1 := match op with
            | JobFinished job => default w (work (job_ref job) w)
            | _ => w
            end in
  default (Rejected (External "TimeoutError"), w1) (respond op w1).

Definition system : Env := mkEnv System serve.

(** ** Concurrent callers *)

(** A call in flight: what is left of it and what it did so far. *)
Record Caller : Type := mkCaller {
  pending : Prog Result;
  history : list event
}.

Record Config : Type := mkConfig {
  callers : list Caller;
  shared : System
}.

(** [n] calls of the same method, none of which has started. *)
Definition launch (n : nat) (call : Prog Result) (w : System) : Config :=
  mkConfig (replicate n (mkCaller call [])) w.

(** A scheduling decision: caller [i] resumes at the call it awaits, the
    worker runs the waiting job [ref], or the wait of caller [i] for a
    job that has not settled runs out of time. *)
Inductive label : Type :=
  | Resume (i : nat)
  | Work (ref : nat)
  | TimeOut (i : nat).

Definition resume (c : Caller) (w : System) : option (Caller * System) :=
  match pending c with
  | Await op k =>
      match respond op w with
      | Some (o, w1) => Some (mkCaller (k o) (history c ++ [Called op o]), w1)
      | None => None
      end
  | LoggerError m e k => Some (mkCaller k (history c ++ [Logged m e]), w)
  | Ret _ | Throw _ => None
  end.

(** Modelled from the spec: the wait for a job is bounded by the caller's
    time-out (sections 5, 6 and 8).  A call suspended on a job that has not
    settled fails its wait with TimeoutError; the job itself stays and may
    still run. *)
Definition expire (c : Caller) (w : System) : option Caller :=
  match pending c with
  | Await op k =>
      match op in Op X return (outcome X -> Prog Result) -> option Caller with
      | JobFinished job =>
          fun k =>
            match finished job (queue w) with
            | None =>
                Some (mkCaller (k (Rejected (External "TimeoutError")))
                        (history c ++
                         [Called (JobFinished job)
                            (Rejected (External "TimeoutError"))]))
            | Some _ => None
            end
      | _ => fun _ => None
      end k
  | _ => None
  end.

Definition step (l : label) (c : Config) : option Config :=
  match l with
  | Resume i =>
      match callers c !! i with
      | Some caller =>
          match resume caller (shared c) with
          | Some (caller1, w1) => Some (mkConfig (<[i := caller1]> (callers c)) w1)
          | None => None
          end
      | None => None
      end
  | Work ref =>
      match work ref (shared c) with
      | Some w1 => Some (mkConfig (callers c) w1)
      | None => None
      end
  | TimeOut i =>
      match callers c !! i with
      | Some caller =>
          match expire caller (shared c) with
          | Some caller1 =>
              Some (mkConfig (<[i := caller1]> (callers c)) (shared c))
          | None => None
          end
      | None => None
      end
  end.

(** A schedule is run from left to right; [None] when one of its decisions
    is not possible. *)
Fixpoint exec (schedule : list label) (c : Config) : option Config :=
  match schedule with
  | [] => Some c
  | l :: rest =>
      match step l c with
      | Some c1 => exec rest c1
      | None => None
      end
  end.

Definition is_work (l : label) : bool :=
  match l with
  | Work _ => true
  | Resume _ | TimeOut _ => false
  end.

(** The call is suspended in [job.finished()]. *)
Definition awaits_job (c : Caller) : bool :=
  match pending c with
  | Await (JobFinished _) _ => true
  | _ => false
  end.

(** What a call has returned or thrown, once it is over. *)
Definition answer (c : Caller) : option (outcome Result) :=
  match pending c with
  | Ret v => Some (Resolved v)
  | Throw e => Some (Rejected e)
  | _ => None
  end.

(** A cache answer that makes [cacheFirst] go on to the queue: nothing, the
    empty string, or a text that does not parse. *)
Definition is_miss (cached : option string) : bool :=
  match cached with
  | Some text =>
      match JSON_parse text with
      | Resolved _ => false
      | Rejected _ => true
      end
  | None => true
  end.

(** The history starts with a miss of the cache for [cacheKey]. *)
Definition first_miss (cacheKey : string) (h : list event) : bool :=
  match h with
  | Called op o :: _ =>
      match op in Op X return outcome X -> bool with
      | CacheGet key =>
          fun o => match o with
                   | Resolved cached =>
                       bool_decide (key = cacheKey) && is_miss cached
                   | Rejected _ => false
                   end
      | _ => fun _ => false
      end o
  | _ => false
  end.

(** The first thing the call saw was a miss of the cache. *)
Definition observed_miss (cacheKey : string) (c : Caller) : bool :=
  first_miss cacheKey (history c).

(** ** The states of identical calls that share one job

    [n] calls of [cacheFirst] with the same arguments against a dispatcher
    that starts without jobs.  The first job ever created is [theJob]. *)

Section SharedJob.
Variables (key : string) (rttl jttl : number) (jt : string) (ps : Params).

Definition theJob : Job Params number :=
  mkJob 0 "cacheFirstJob" (mkPayload jt ps key) (mkOpts key true jttl).

Definition timedOut : exn :=
  InternalServerErrorException
    ("Job timed out after " +:+ number_toString jttl +:+ " ms").

(** Where a call can be while no job has run yet, given the queue [q].
    Past the cache check, a call that goes on has seen a miss. *)
Inductive scheduling (q : Queue) : Caller -> Prop :=
  | sch_start : scheduling q (mkCaller (cacheFirst key rttl jttl jt ps) [])
  | sch_logged m e h :
      first_miss key h = true ->
      scheduling q (mkCaller (LoggerError m e (onMiss key rttl jttl jt ps)) h)
  | sch_miss h :
      first_miss key h = true ->
      scheduling q (mkCaller (onMiss key rttl jttl jt ps) h)
  | sch_enqueue h :
      first_miss key h = true ->
      scheduling q
        (mkCaller (bind (enqueueJob key jttl jt ps) (completeWith key rttl jttl))
           h)
  | sch_recover h :
      q = [mkEntry theJob Waiting true] ->
      first_miss key h = true ->
      scheduling q
        (mkCaller (bind (recoverJob key) (completeWith key rttl jttl)) h)
  | sch_wait h :
      q = [mkEntry theJob Waiting true] ->
      first_miss key h = true ->
      scheduling q (mkCaller (completeWith key rttl jttl theJob) h)
  | sch_failing m e e' h :
      scheduling q (mkCaller (LoggerError m e (Throw e')) h)
  | sch_ret v h : scheduling q (mkCaller (Ret v) h)
  | sch_throw e h : scheduling q (mkCaller (Throw e) h).

(** Where a call can be once every call waits for [theJob], whose state
    is [st].  A call fails when the job has failed or when its wait has
    run out of time. *)
Inductive settling (st : JobState) : Prog Result -> Prop :=
  | stl_wait : settling st (completeWith key rttl jttl theJob)
  | stl_populate v :
      st = Completed v ->
      settling st (bind (populateCache key rttl v) (fun _ => Ret v))
  | stl_logged v m e :
      st = Completed v -> settling st (LoggerError m e (Ret v))
  | stl_ret v : st = Completed v -> settling st (Ret v)
  | stl_failed_logged m e' : settling st (LoggerError m e' (Throw timedOut))
  | stl_failed : settling st (Throw timedOut).

(** The handler calls made so far, given the state of [theJob]. *)
Definition served (st : JobState) (calls : list (string * Params)) : Prop :=
  match st with
  | Waiting => calls = []
  | Completed _ => calls = [(jt, ps)]
  | Failed _ => calls = [] \/ calls = [(jt, ps)]
  end.

Definition inv_scheduling (c : Config) : Prop :=
  (queue (shared c) = [] \/
   queue (shared c) = [mkEntry theJob Waiting true]) /\
  invocations (shared c) = [] /\
  Forall (scheduling (queue (shared c))) (callers c).

Definition inv_settling (c : Config) : Prop :=
  (queue (shared c) = [] /\ callers c = [] /\ invocations (shared c) = []) \/
  exists st stored,
    queue (shared c) = [mkEntry theJob st stored] /\
    served st (invocations (shared c)) /\
    Forall (fun caller => settling st (pending caller)) (callers c).

(** Where a call of [cacheFirst] can be at all.  The flag tells whether
    the call may still enqueue a job. *)
Inductive stage : bool -> Prog Result -> Prop :=
  | stg_start : stage true (cacheFirst key rttl jttl jt ps)
  | stg_logged m e : stage true (LoggerError m e (onMiss key rttl jttl jt ps))
  | stg_miss : stage true (onMiss key rttl jttl jt ps)
  | stg_enqueue :
      stage true
        (bind (enqueueJob key jttl jt ps) (completeWith key rttl jttl))
  | stg_recover :
      stage false (bind (recoverJob key) (completeWith key rttl jttl))
  | stg_wait job : stage false (completeWith key rttl jttl job)
  | stg_populate v :
      stage false (bind (populateCache key rttl v) (fun _ => Ret v))
  | stg_log_ret m e v : stage false (LoggerError m e (Ret v))
  | stg_log_throw m e e' : stage false (LoggerError m e (Throw e'))
  | stg_ret v : stage false (Ret v)
  | stg_throw e : stage false (Throw e).

Definition credit (b : bool) : nat := if b then 1 else 0.

Definition is_settled (e : JobEntry) : bool :=
  match entry_state e with
  | Waiting => false
  | _ => true
  end.

(** Of [n] calls, the jobs created so far and the calls that may still
    create one are [n] at most together; and the handler has run at most
    once per settled job. *)
Definition inv_budget (n : nat) (c : Config) : Prop :=
  exists flags : list bool,
    Forall2 (fun b caller => stage b (pending caller)) flags (callers c) /\
    length (queue (shared c)) + sum_list_with credit flags <= n /\
    length (invocations (shared c)) <=
      sum_list_with (fun e => credit (is_settled e)) (queue (shared c)).

End SharedJob.

End Processor.

(** ** A concrete application

    Results are natural numbers, cached as JSON number literals; the
    handler of ["fetchUser"] counts its own runs and returns the count. *)

Definition decode_nat (text : string) : option nat :=
  match NilEmpty.uint_of_string text with
  | Some u =>
      let n := Nat.of_uint u in
      if String.eqb (pretty n) text then Some n else None
  | None => None
  end.

#[local] Instance demo : Runtime := {|
  Params := nat;
  Result := nat;
  number := Z;
  json_decode := decode_nat;
  json_encode := fun n => Some (pretty n);
  number_toString := pretty;
  Ambient := nat
|}.

Definition fetchUser : CacheJobHandler :=
  fun (_ : nat) (runs : nat) => (Resolved (S runs), S runs).

Definition demoHandlers : gmap string CacheJobHandler :=
  registerHandler "fetchUser" fetchUser ∅.

(** A cache driver in memory; the flags make the respective call reject,
    as a driver does whose store is out of reach. *)
Definition memoryDriver (get_down set_down del_down : bool) : ICacheDriver := {|
  Store := gmap string string;
  get := fun key s =>
    if get_down then (Rejected (External "StoreError"), s)
    else (Resolved (s !! key), s);
  set := fun key value ttl s =>
    if set_down then (Rejected (External "StoreError"), s)
    else (Resolved tt, <[key := value]> s);
  del := fun key s =>
    if del_down then (Rejected (External "StoreError"), s)
    else (Resolved tt, delete key s)
|}.

Definition emptySystem (D : ICacheDriver) (s : @Store _ D) : @System demo D :=
  mkSystem s [] 0 [].

(** A queue whose [add] rejects although the first lookup found no job; a
    later lookup answers [found].  The world counts the calls made. *)
Definition racingQueue (found : option (Job nat Z)) : Env :=
  mkEnv nat (fun X (op : Op X) (n : nat) =>
    match op in Op X return outcome X * nat with
    | CacheGet _ => (Resolved None, S n)
    | CacheSet _ _ _ => (Resolved tt, S n)
    | CacheDel _ => (Resolved tt, S n)
    | QueueGetJob _ => (Resolved (if decide (n = 1) then None else found), S n)
    | QueueAdd _ _ _ => (Rejected (External "DuplicateIdError"), S n)
    | JobFinished _ => (Resolved 7, S n)
    end).

(** Two calls for the same key.  Both miss the cache; the first one
    schedules its job, which runs and is removed before the second one
    looks the job up. *)
Definition racySchedule : list label :=
  [Resume 0; Resume 1;
   Resume 0; Resume 0; Work 0; Resume 0; Resume 0;
   Resume 1; Resume 1; Work 1; Resume 1; Resume 1].

(** Two calls for the same key, both waiting for the one job before it
    runs. *)
Definition sharingSchedule : list label * list label :=
  ([Resume 0; Resume 1; Resume 0; Resume 1; Resume 0; Resume 1; Resume 1],
   [Work 0; Resume 0; Resume 1; Resume 1; Resume 0]).

(** A queue whose [add] rejects after a first lookup that found no job,
    and whose later lookups reject as well. *)
Definition lostQueue : Env :=
  mkEnv nat (fun X (op : Op X) (n : nat) =>
    match op in Op X return outcome X * nat with
    | CacheGet _ => (Resolved None, S n)
    | CacheSet _ _ _ => (Resolved tt, S n)
    | CacheDel _ => (Resolved tt, S n)
    | QueueGetJob _ =>
        (if decide (n = 1) then Resolved None
         else Rejected (External "QueueDown"), S n)
    | QueueAdd _ _ _ => (Rejected (External "DuplicateIdError"), S n)
    | JobFinished _ => (Resolved 7, S n)
    end).

(** Two calls for the same key wait for the one job; the wait of the
    first runs out of time before the worker takes the job, the second
    gets the result. *)
Definition impatientSchedule : list label * list label :=
  ([Resume 0; Resume 1; Resume 0; Resume 1; Resume 0; Resume 1; Resume 1],
   [TimeOut 0; Work 0; Resume 0; Resume 1; Resume 1]).

Definition someJob : Job nat Z :=
  mkJob 0 "cacheFirstJob" (mkPayload "fetchUser" 42 "user:42")
    (mkOpts "user:42" true 5000%Z).

(** A handler that always rejects, registered beside ["fetchUser"]. *)
Definition brokenHandler : CacheJobHandler :=
  fun (_ : nat) (runs : nat) => (Rejected (External "Boom"), S runs).

Definition moreHandlers : gmap string CacheJobHandler :=
  registerHandler "broken" brokenHandler demoHandlers.

(** A system whose dispatcher already holds a waiting job for
    ["user:42"]. *)
Definition busySystem : @System demo (memoryDriver false false false) :=
  mkSystem ∅ [mkEntry someJob Waiting true] 0 [].

(** The same application with a [JSON.stringify] that throws on the
    result [13]; only named explicitly. *)
Definition pickyRuntime : Runtime := {|
  Params := nat;
  Result := nat;
  number := Z;
  json_decode := decode_nat;
  json_encode := fun n => if decide (n = 13) then None else Some (pretty n);
  number_toString := pretty;
  Ambient := nat
|}.

Definition unlucky : @CacheJobHandler pickyRuntime :=
  fun (_ : nat) (runs : nat) => (Resolved 13, S runs).

Definition pickyHandlers : gmap string (@CacheJobHandler pickyRuntime) :=
  @registerHandler pickyRuntime "unlucky" unlucky ∅.

Definition pickyDriver : @ICacheDriver pickyRuntime := {|
  Store := gmap string string;
  get := fun key s => (Resolved (s !! key), s);
  set := fun key value ttl s => (Resolved tt, <[key := value]> s);
  del := fun key s => (Resolved tt, delete key s)
|}.

(** * Properties *)

(** ** How runs compose *)

Section Runs.
Context `{R : Runtime}.
Variable E : Env.

Lemma after_nil {A : Type} (r : Run (World E) A) : after [] r = r.
Proof. by destruct r. Qed.

Lemma after_after {A : Type} (t1 t2 : list event) (r : Run (World E) A) :
  after t1 (after t2 r) = after (t1 ++ t2) r.
Proof. unfold after; simpl. by rewrite app_assoc. Qed.

Lemma run_bind {A B : Type} (p : Prog A) (f : A -> Prog B) (w : World E) :
  run E (bind p f) w =
    match settled (run E p w) with
    | Resolved a => after (trace (run E p w)) (run E (f a) (world (run E p w)))
    | Rejected e => mkRun (Rejected e) (world (run E p w)) (trace (run E p w))
    end.
Proof.
  revert w. induction p as [a|e|X op k IH|m e k IH]; intros w; simpl.
  - by rewrite after_nil.
  - reflexivity.
  - destruct (perform E X op w) as [o w1]. rewrite IH. simpl.
    destruct (settled (run E (k o) w1)); [by rewrite after_after|done].
  - rewrite IH. simpl.
    destruct (settled (run E k w)); [by rewrite after_after|done].
Qed.

Lemma run_try_catch {A : Type} (p : Prog A) (h : exn -> Prog A) (w : World E) :
  run E (try_catch p h) w =
    match settled (run E p w) with
    | Resolved a => run E p w
    | Rejected e => after (trace (run E p w)) (run E (h e) (world (run E p w)))
    end.
Proof.
  revert w. induction p as [a|e|X op k IH|m e k IH]; intros w; simpl.
  - reflexivity.
  - by rewrite after_nil.
  - destruct (perform E X op w) as [o w1]. rewrite IH. simpl.
    destruct (settled (run E (k o) w1)); [done|by rewrite after_after].
  - rewrite IH. simpl.
    destruct (settled (run E k w)); [done|by rewrite after_after].
Qed.

(** The cache check, case by case. *)
Lemma run_checkCache (key : string) (w : World E) :
  run E (checkCache key) w =
    match perform E _ (CacheGet key) w with
    | (Resolved cached, w1) =>
        if truthy cached then
          match JSON_parse (default EmptyString cached) with
          | Resolved v => mkRun (Resolved (Some v)) w1
                            [Called (CacheGet key) (Resolved cached)]
          | Rejected err =>
              mkRun (Resolved None) w1
                [Called (CacheGet key) (Resolved cached);
                 Logged ("Error parsing cache for key " +:+ key) err]
          end
        else mkRun (Resolved None) w1 [Called (CacheGet key) (Resolved cached)]
    | (Rejected e, w1) =>
        mkRun (Rejected e) w1 [Called (CacheGet key) (Rejected e)]
    end.
Proof.
  unfold checkCache, await; simpl.
  destruct (perform E _ (CacheGet key) w) as [[cached|e] w1]; simpl; [|done].
  destruct (truthy cached); simpl; [|done].
  destruct (JSON_parse (default EmptyString cached)); reflexivity.
Qed.

Lemma run_cacheFirst (key : string) (rttl jttl : number) (jt : string)
    (ps : Params) (w : World E) :
  run E (cacheFirst key rttl jttl jt ps) w =
    let c := run E (checkCache key) w in
    match settled c with
    | Resolved (Some v) => mkRun (Resolved v) (world c) (trace c)
    | Resolved None =>
        after (trace c) (run E (onMiss key rttl jttl jt ps) (world c))
    | Rejected e => mkRun (Rejected e) (world c) (trace c)
    end.
Proof.
  unfold cacheFirst. rewrite run_bind. cbv zeta.
  destruct (run E (checkCache key) w) as [[[v|]|e] w1 t]; cbn; try done.
  unfold after; cbn. by rewrite app_nil_r.
Qed.

(** A text that parses is not empty. *)
Lemma JSON_parse_truthy (text : string) (v : Result) :
  JSON_parse text = Resolved v -> truthy (Some text) = true.
Proof. by destruct text. Qed.

End Runs.

(** ** One call of [cacheFirst] against arbitrary collaborators *)

Section Sequential.
Context `{R : Runtime}.
Variable E : Env.
Implicit Types (key jt : string) (rttl jttl : number) (ps : Params).
Implicit Types (w : World E).



(** C2: when the cache driver's [get] returns a text that [JSON.parse]
    accepts, [cacheFirst] returns the parsed value; the call to [get] is
    the only thing it does: no job lookup, no enqueue, no cache write. *)
Theorem cache_hit_short_circuits key rttl jttl jt ps w w1 text v :
  perform E _ (CacheGet key) w = (Resolved (Some text), w1) ->
  JSON_parse text = Resolved v ->
  let r := run E (cacheFirst key rttl jttl jt ps) w in
  r = mkRun (Resolved v) w1 [Called (CacheGet key) (Resolved (Some text))] /\
  Forall (fun ev => is_queue_call ev = false /\ is_cache_set ev = false /\
                    is_job_wait ev = false) (trace r).
Proof.
  intros Hget Hparse r.
  assert (r = mkRun (Resolved v) w1
                [Called (CacheGet key) (Resolved (Some text))]) as ->.
  { subst r. rewrite run_cacheFirst, run_checkCache, Hget.
    rewrite (JSON_parse_truthy _ _ Hparse). simpl. by rewrite Hparse. }
  split; [done|]. by repeat constructor.
Qed.

(** C4, as the code has it: a rejection of the cache driver's [get] is not
    caught; the call fails with that very error, right after the [get]. *)
Theorem cache_read_failure_propagates key rttl jttl jt ps w w1 e :
  perform E _ (CacheGet key) w = (Rejected e, w1) ->
  run E (cacheFirst key rttl jttl jt ps) w =
    mkRun (Rejected e) w1 [Called (CacheGet key) (Rejected e)].
Proof.
  intros Hget. by rewrite run_cacheFirst, run_checkCache, Hget.
Qed.


(** C9: [warmCacheForKey] calls [del] on the key; when that resolves it
    does what [cacheFirst] does with the same arguments, and when it
    rejects the call fails with that rejection and nothing else is done. *)
Theorem warm_refresh_deletes_then_resolves key rttl jttl jt ps w :
  run E (warmCacheForKey key rttl jttl jt ps) w =
    match perform E _ (CacheDel key) w with
    | (Resolved u, w1) =>
        after [Called (CacheDel key) (Resolved u)]
          (run E (cacheFirst key rttl jttl jt ps) w1)
    | (Rejected e, w1) =>
        mkRun (Rejected e) w1 [Called (CacheDel key) (Rejected e)]
    end.
Proof.
  unfold warmCacheForKey, await. cbn [bind run].
  by destruct (perform E _ (CacheDel key) w) as [[u|e] w1].
Qed.


(** C5: when the wait for the job fails ([job.finished()] rejects, be it
    a failed or a timed-out job), the call fails with the
    "Job timed out after <jobTTL> ms" exception, and the cache driver's
    [set] is not called. *)
Theorem failed_wait_times_out key rttl jttl jt ps w :
  let r := run E (cacheFirst key rttl jttl jt ps) w in
  existsb wait_failed (trace r) = true ->
  settled r =
    Rejected (InternalServerErrorException
                ("Job timed out after " +:+ number_toString jttl +:+ " ms")) /\
  Forall (fun ev => is_cache_set ev = false) (trace r).
Proof.
  intros r. subst r.
  unfold cacheFirst, checkCache, onMiss, scheduleJob, enqueueJob, recoverJob,
    completeWith, awaitJob,
    populateCache, await, lift.
  cbn [bind try_catch run].
  repeat (case_match; cbn); intros; try done;
    (split; [done|by repeat constructor]).
Qed.

(** What is left of a call once it holds its job starts with the wait. *)
Lemma completeWith_waits key rttl jttl (job : Job Params number) w :
  exists o rest,
    trace (run E (completeWith key rttl jttl job) w) =
      Called (JobFinished job) o :: rest.
Proof.
  unfold completeWith, awaitJob, await. cbn [bind try_catch run].
  destruct (perform E _ (JobFinished job) w) as [o w1].
  by eexists _, _.
Qed.

(** C6, as the code has it: on a cache miss where no job is found and
    [add] rejects, the job is looked up once more.  A job found then is
    the one the call waits for, and the call ends as that wait does: it
    returns the result the wait resolves with, or fails with the time-out
    exception when the wait rejects.  When the lookup resolves without a
    job the call fails with "Failed to schedule cache job".  When the
    lookup itself rejects, no job is found either, and the call fails with
    that rejection. *)
Theorem failed_enqueue_recovers key rttl jttl jt ps w0 t0 w w1 w2 e :
  run E (checkCache key) w0 = mkRun (Resolved None) w t0 ->
  perform E _ (QueueGetJob key) w = (Resolved None, w1) ->
  perform E _ (QueueAdd "cacheFirstJob" (mkPayload jt ps key)
                 (mkOpts key true jttl)) w1 = (Rejected e, w2) ->
  let r := run E (cacheFirst key rttl jttl jt ps) w0 in
  let attempt o :=
    t0 ++ [Called (QueueGetJob key) (Resolved None);
           Called (QueueAdd "cacheFirstJob" (mkPayload jt ps key)
                     (mkOpts key true jttl)) (Rejected e);
           Called (QueueGetJob key) o] in
  match perform E _ (QueueGetJob key) w2 with
  | (Resolved (Some job), w3) =>
      r = after (attempt (Resolved (Some job)))
            (run E (completeWith key rttl jttl job) w3) /\
      match perform E _ (JobFinished job) w3 with
      | (Resolved result, w4) =>
          settled r = Resolved result /\
          exists rest,
            trace r =
              attempt (Resolved (Some job)) ++
              Called (JobFinished job) (Resolved result) :: rest
      | (Rejected err, w4) =>
          r = mkRun (Rejected (InternalServerErrorException
                                 ("Job timed out after "
                                    +:+ number_toString jttl +:+ " ms")))
                w4
                (attempt (Resolved (Some job)) ++
                 [Called (JobFinished job) (Rejected err);
                  Logged ("Job for key " +:+ key +:+ " failed or timed out")
                    err])
      end
  | (Resolved None, w3) =>
      r = mkRun (Rejected (InternalServerErrorException
                             "Failed to schedule cache job"))
            w3 (attempt (Resolved None))
  | (Rejected e', w3) => r = mkRun (Rejected e') w3 (attempt (Rejected e'))
  end.
Proof.
  intros Hcheck Hlookup Hadd r attempt. subst r attempt.
  rewrite run_cacheFirst, Hcheck. cbn [settled world trace].
  unfold onMiss, scheduleJob, enqueueJob, recoverJob, await.
  cbn [bind try_catch run]. rewrite Hlookup. cbn [bind try_catch run]. rewrite Hadd.
  cbn [bind try_catch run].
  destruct (perform E _ (QueueGetJob key) w2) as [[[job|]|e'] w3];
    cbn [bind try_catch run].
  - rewrite !after_after, <- !app_assoc. cbn [app]. split; [reflexivity|].
    unfold completeWith, awaitJob, populateCache, await, lift.
    cbn [bind try_catch run].
    destruct (perform E _ (JobFinished job) w3) as [[result|err] w4];
      cbn [bind try_catch run].
    + repeat (case_match; cbn); (split; [done|]); by eexists.
    + unfold after; cbn. by rewrite <- !app_assoc.
  - unfold after; cbn. reflexivity.
  - unfold after; cbn. reflexivity.
Qed.

(** C7: when the job completes with a result and the cache driver's [set]
    then rejects, the call still returns that result; the rejection is
    logged, and that is the last thing the call does. *)
Theorem failed_cache_write_is_swallowed key rttl jttl jt ps w result e :
  let r := run E (cacheFirst key rttl jttl jt ps) w in
  result ∈ omap wait_result (trace r) ->
  e ∈ omap set_error (trace r) ->
  settled r = Resolved result /\
  last (trace r) = Some (Logged ("Error setting cache for key " +:+ key) e).
Proof.
  intros r. subst r.
  unfold cacheFirst, checkCache, onMiss, scheduleJob, enqueueJob, recoverJob,
    completeWith, awaitJob,
    populateCache, await, lift.
  cbn [bind try_catch run].
  repeat (case_match; cbn); intros Hres Hset;
    first [ by inversion Hres | by inversion Hset
          | apply list_elem_of_singleton in Hres;
            apply list_elem_of_singleton in Hset; by simplify_eq ].
Qed.

End Sequential.

(** ** One call against the dispatcher and the worker *)

Section Served.
Context `{R : Runtime} `{D : !ICacheDriver}.
Variable jobHandlers : gmap string CacheJobHandler.
Implicit Types (key jt : string) (rttl jttl : number) (ps : Params).
Implicit Types (w : System) (q : list JobEntry).

Lemma serve_get key w :
  serve jobHandlers _ (CacheGet key) w =
    ((get key (store w)).1,
     mkSystem (get key (store w)).2 (queue w) (ambient w) (invocations w)).
Proof. unfold serve, respond. by destruct (get key (store w)). Qed.

Lemma serve_getJob key w :
  serve jobHandlers _ (QueueGetJob key) w = (Resolved (getJob key (queue w)), w).
Proof. reflexivity. Qed.

Lemma serve_add_fresh name data (opts : JobOptions number) w :
  getJob (jobId opts) (queue w) = None ->
  serve jobHandlers _ (QueueAdd name data opts) w =
    (Resolved (mkJob (length (queue w)) name data opts),
     mkSystem (store w)
       (queue w ++ [mkEntry (mkJob (length (queue w)) name data opts)
                      Waiting true])
       (ambient w) (invocations w)).
Proof. intros Hfree. unfold serve, respond, add. by rewrite Hfree. Qed.

(** The job enqueued last is run while its caller waits for it. *)
Lemma serve_finished_last (job : Job Params number) s q a calls :
  job_ref job = length q ->
  let r := handleCacheFirstJob jobHandlers job a in
  serve jobHandlers _ (JobFinished job)
    (mkSystem s (q ++ [mkEntry job Waiting true]) a calls) =
    (returned r,
     mkSystem s (q ++ [settle (returned r) (mkEntry job Waiting true)])
       (ambient_after r) (calls ++ handler_calls r)).
Proof.
  intros Href r. unfold serve, work. cbn [queue ambient store invocations].
  rewrite Href, list_lookup_middle by done. cbn [entry_state entry_job default].
  fold r. unfold respond, finished. cbn [queue].
  rewrite alter_app_r_alt, Nat.sub_diag by lia. cbn [alter list_alter].
  cbv [id]. cbn [queue]. rewrite Href, list_lookup_middle by done.
  by destruct (returned r).
Qed.



End Served.

(** ** Concurrent calls for one key *)

Section SingleFlight.
Context `{R : Runtime} `{D : !ICacheDriver}.
Variable jobHandlers : gmap string CacheJobHandler.
Variables (key : string) (rttl jttl : number) (jt : string) (ps : Params).

Local Abbreviation job0 := (theJob key jttl jt ps).
Local Abbreviation entry0 := (mkEntry (theJob key jttl jt ps) Waiting true).
Local Abbreviation scheduling := (scheduling key rttl jttl jt ps).
Local Abbreviation settling := (settling key rttl jttl jt ps).

Lemma forallb_true_Forall {A : Type} (f : A -> bool) (l : list A) :
  forallb f l = true -> Forall (fun x => f x = true) l.
Proof.
  induction l as [|x l IH]; cbn; [constructor|].
  intros [Hx Hl]%andb_prop. constructor; auto.
Qed.

Lemma getJob_entry0 : getJob key [entry0] = Some job0.
Proof. unfold getJob, holds. cbn. by rewrite bool_decide_eq_true_2. Qed.

(** A history that starts with a miss keeps doing so. *)
Lemma first_miss_app (h : list event) (ev : event) :
  first_miss key h = true -> first_miss key (h ++ [ev]) = true.
Proof. by destruct h. Qed.

Lemma falsy_is_miss (cached : option string) :
  truthy cached = false -> is_miss cached = true.
Proof. by destruct cached as [[|c text]|]. Qed.

Lemma unparsable_is_miss (cached : option string) (e : exn) :
  truthy cached = true ->
  JSON_parse (default EmptyString cached) = Rejected e ->
  is_miss cached = true.
Proof.
  destruct cached as [text|]; [|done]. cbn. intros _ Hparse.
  by rewrite Hparse.
Qed.

(** A call that is still scheduling does not care whether the job exists
    already. *)
Lemma scheduling_nil (q : list JobEntry) (c : Caller) :
  scheduling [] c -> scheduling q c.
Proof. destruct 1; try discriminate; by constructor. Qed.

(** One step of a scheduling call keeps it scheduling; it creates
    [theJob] or leaves the queue alone. *)
Lemma scheduling_resume (c c' : Caller) (w w' : System) :
  queue w = [] \/ queue w = [entry0] ->
  scheduling (queue w) c ->
  resume c w = Some (c', w') ->
  (queue w' = queue w \/ queue w' = [entry0]) /\
  invocations w' = invocations w /\
  scheduling (queue w') c'.
Proof.
  intros Hq Hform. unfold resume.
  destruct Hform
    as [|m e h Hh|h Hh|h Hh|h Hfull Hh|h Hfull Hh|m e e' h|v h|e h];
    cbn [pending history].
  - (* the cache check *)
    unfold cacheFirst, checkCache, await. cbn [bind try_catch respond].
    destruct (get key (store w)) as [[cached|e] s1]; intros [= <- <-];
      cbn [pending queue invocations]; (split; [by left|]); (split; [done|]);
      [|by constructor].
    destruct (truthy cached) eqn:Htruthy; cbn [bind try_catch].
    + unfold lift.
      destruct (JSON_parse (default EmptyString cached)) eqn:Hparse;
        cbn [bind try_catch]; [by constructor|].
      apply sch_logged. cbn. rewrite bool_decide_eq_true_2 by done.
      by eapply unparsable_is_miss.
    + apply sch_miss. cbn. rewrite bool_decide_eq_true_2 by done.
      by apply falsy_is_miss.
  - intros [= <- <-]. repeat split; [by left|].
    by apply sch_miss, first_miss_app.
  - (* the job lookup *)
    unfold onMiss, scheduleJob, await. cbn [bind try_catch respond].
    intros [= <- <-]. repeat split; [by left|].
    destruct Hq as [Hq | Hq]; rewrite Hq.
    + cbn. by apply sch_enqueue, first_miss_app.
    + rewrite getJob_entry0. cbn [bind].
      by apply sch_wait; [|apply first_miss_app].
  - (* the enqueue *)
    unfold enqueueJob, await. cbn [bind try_catch respond]. unfold add.
    cbn [jobId].
    destruct Hq as [Hq | Hq]; rewrite Hq.
    + cbn [getJob fmap option_fmap option_map List.find length app].
      intros [= <- <-]. cbn [pending queue invocations bind try_catch].
      repeat split; [by right|].
      by apply sch_wait; [|apply first_miss_app].
    + rewrite getJob_entry0. intros [= <- <-].
      cbn [pending queue invocations bind try_catch].
      repeat split; [by left|].
      by apply sch_recover; [|apply first_miss_app].
  - (* the second lookup *)
    unfold recoverJob, await. cbn [bind try_catch respond].
    intros [= <- <-]. repeat split; [by left|].
    rewrite Hfull, getJob_entry0. cbn [bind].
    by apply sch_wait; [|apply first_miss_app].
  - (* the wait: the job has not run *)
    unfold completeWith, awaitJob, await. cbn [bind try_catch respond].
    unfold finished. rewrite Hfull. cbn. done.
  - intros [= <- <-]. repeat split; [by left|]. constructor.
  - done.
  - done.
Qed.

(** A wait that runs out of time leaves a call that is about to fail. *)
Lemma scheduling_expire (q : list JobEntry) (c c' : Caller) (w : System) :
  scheduling q c -> expire c w = Some c' -> scheduling q c'.
Proof.
  unfold expire.
  destruct 1 as [|m e h Hh|h Hh|h Hh|h Hfull Hh|h Hfull Hh|m e e' h|v h|e h];
    cbn; try done.
  destruct (finished job0 (queue w)); [done|].
  intros [= <-]. constructor.
Qed.

Lemma scheduling_timeout (i : nat) (c c' : Config) :
  inv_scheduling key rttl jttl jt ps c ->
  step jobHandlers (TimeOut i) c = Some c' ->
  inv_scheduling key rttl jttl jt ps c'.
Proof.
  intros (Hq & Hcalls & Hforms). unfold step.
  destruct (callers c !! i) as [caller|] eqn:Hi; [|done].
  destruct (expire caller (shared c)) as [caller1|] eqn:Hexp; [|done].
  intros [= <-]. unfold inv_scheduling. cbn [shared callers].
  split; [done|]. split; [done|]. apply Forall_insert; [done|].
  exact (scheduling_expire _ _ _ _ (Forall_lookup_1 _ _ _ _ Hforms Hi) Hexp).
Qed.

Lemma scheduling_step (i : nat) (c c' : Config) :
  inv_scheduling key rttl jttl jt ps c ->
  step jobHandlers (Resume i) c = Some c' ->
  inv_scheduling key rttl jttl jt ps c'.
Proof.
  intros (Hq & Hcalls & Hforms). unfold step.
  destruct (callers c !! i) as [caller|] eqn:Hi; [|done].
  destruct (resume caller (shared c)) as [[caller1 w1]|] eqn:Hres; [|done].
  intros [= <-]. unfold inv_scheduling. cbn [shared callers].
  destruct (scheduling_resume _ _ _ _ Hq (Forall_lookup_1 _ _ _ _ Hforms Hi) Hres)
    as (Hq1 & Hcalls1 & Hform1).
  split; [|split].
  - destruct Hq1 as [-> | ->]; [done|by right].
  - congruence.
  - apply Forall_insert; [|done].
    destruct Hq1 as [-> | Hq1]; [done|].
    destruct Hq as [Hq | Hq]; rewrite Hq in Hforms; rewrite Hq1; [|done].
    eapply Forall_impl; [exact Hforms|]. intros ?. apply scheduling_nil.
Qed.

Lemma scheduling_exec (s : list label) (c c' : Config) :
  forallb (fun l => negb (is_work l)) s = true ->
  inv_scheduling key rttl jttl jt ps c ->
  exec jobHandlers s c = Some c' ->
  inv_scheduling key rttl jttl jt ps c'.
Proof.
  revert c. induction s as [|l s IH]; intros c Hquiet Hinv; cbn [exec].
  - by intros [= <-].
  - cbn [forallb] in Hquiet. apply andb_prop in Hquiet as [Hl Hs].
    destruct l as [i|ref|i]; [|done|].
    + destruct (step jobHandlers (Resume i) c) as [c1|] eqn:Hstep; [|done].
      apply IH; [done|]. by eapply scheduling_step.
    + destruct (step jobHandlers (TimeOut i) c) as [c1|] eqn:Hstep; [|done].
      apply IH; [done|]. by eapply scheduling_timeout.
Qed.

Lemma launch_scheduling (n : nat) (s : Store) (a : Ambient) :
  inv_scheduling key rttl jttl jt ps
    (launch n (cacheFirst key rttl jttl jt ps) (mkSystem s [] a [])).
Proof.
  split; [by left|]. split; [done|].
  apply Forall_replicate. cbn. constructor.
Qed.

(** A scheduling call that is suspended in [job.finished()] waits for
    [theJob], and it has seen a miss. *)
Lemma scheduling_awaits (q : list JobEntry) (c : Caller) :
  scheduling q c -> awaits_job c = true ->
  q = [entry0] /\ settling Waiting (pending c) /\ observed_miss key c = true.
Proof.
  unfold awaits_job, observed_miss.
  destruct 1 as [|m e h Hh|h Hh|h Hh|h Hfull Hh|h Hfull Hh|m e e' h|v h|e h];
    cbn; try done.
  intros _. split; [done|]. split; [constructor|done].
Qed.

Lemma scheduling_settling (c : Config) :
  inv_scheduling key rttl jttl jt ps c ->
  Forall (fun caller => awaits_job caller = true) (callers c) ->
  inv_settling key rttl jttl jt ps c /\
  Forall (fun caller => observed_miss key caller = true) (callers c).
Proof.
  intros (Hq & Hcalls & Hforms) Hwait.
  assert (forall i x, callers c !! i = Some x ->
            queue (shared c) = [entry0] /\ settling Waiting (pending x) /\
            observed_miss key x = true) as Hall.
  { intros i x Hi.
    exact (scheduling_awaits _ _ (Forall_lookup_1 _ _ _ _ Hforms Hi)
             (Forall_lookup_1 _ _ _ _ Hwait Hi)). }
  split; [|apply Forall_lookup_2; intros i x Hi; by apply (Hall i x)].
  destruct (callers c) as [|caller rest] eqn:Hcallers.
  - destruct Hq as [Hq | Hq]; [by left|].
    right. exists Waiting, true. by rewrite Hcallers.
  - right. exists Waiting, true.
    destruct (Hall 0 caller eq_refl) as (Hfull & _ & _).
    split; [done|]. split; [done|]. rewrite Hcallers.
    apply Forall_lookup_2. intros i x Hi. by apply (Hall i x).
Qed.

(** Whatever the calls do later, what they saw first stays. *)
Lemma observed_miss_exec (s : list label) (c c' : Config) :
  Forall (fun caller => observed_miss key caller = true) (callers c) ->
  exec jobHandlers s c = Some c' ->
  Forall (fun caller => observed_miss key caller = true) (callers c').
Proof.
  revert c. induction s as [|l s IH]; intros c Hseen; cbn [exec].
  - by intros [= <-].
  - destruct (step jobHandlers l c) as [c1|] eqn:Hstep; [|done].
    apply IH. clear IH. destruct l as [i|ref|i]; cbn [step] in Hstep.
    + destruct (callers c !! i) as [caller|] eqn:Hi; [|done].
      pose proof (Forall_lookup_1 _ _ _ _ Hseen Hi) as Hcaller.
      unfold resume in Hstep.
      destruct (pending caller) as [v|e|X op k|m e k]; try done.
      * destruct (respond op (shared c)) as [[o w1]|]; [|done].
        injection Hstep as <-. apply Forall_insert; [done|].
        by apply first_miss_app.
      * injection Hstep as <-. apply Forall_insert; [done|].
        by apply first_miss_app.
    + destruct (work jobHandlers ref (shared c)) as [w1|]; [|done].
      by injection Hstep as <-.
    + destruct (callers c !! i) as [caller|] eqn:Hi; [|done].
      pose proof (Forall_lookup_1 _ _ _ _ Hseen Hi) as Hcaller.
      unfold expire in Hstep.
      destruct (pending caller) as [v|e|X op k|m e k]; try done.
      destruct op; try done.
      destruct (finished job (queue (shared c))); [done|].
      injection Hstep as <-. apply Forall_insert; [done|].
      by apply first_miss_app.
Qed.

Lemma settling_waiting (st : JobState) (p : Prog Result) :
  settling Waiting p -> settling st p.
Proof. destruct 1; try discriminate; constructor. Qed.

(** One step of a call that waits for [theJob] or finishes after it. *)
Lemma settling_resume (c c' : Caller) (w w' : System) (st : JobState)
    (stored : bool) :
  queue w = [mkEntry job0 st stored] ->
  settling st (pending c) ->
  resume c w = Some (c', w') ->
  queue w' = queue w /\ invocations w' = invocations w /\
  settling st (pending c').
Proof.
  intros Hq Hform. destruct c as [p h]. cbn [pending] in Hform.
  unfold resume. cbn [pending history].
  destruct Hform as [|v Hst|v m e Hst|v Hst|m e'|].
  - (* the wait *)
    unfold completeWith, awaitJob, await. cbn [bind try_catch respond].
    unfold finished. rewrite Hq.
    cbn [job_ref theJob lookup list_lookup entry_state].
    destruct st as [|v|e]; [done| |]; intros [= <- <-];
      cbn [pending bind try_catch]; split_and!; try done.
    + by eapply stl_populate.
    + by apply stl_failed_logged.
  - (* the cache write *)
    unfold populateCache, lift.
    destruct (JSON_stringify v) as [text|err]; cbn [bind try_catch].
    + unfold await. cbn [bind try_catch respond].
      destruct (set key text rttl (store w)) as [[u|err] s1];
        intros [= <- <-]; cbn [pending queue invocations bind try_catch];
        split_and!; try done; [by eapply stl_ret|by eapply stl_logged].
    + intros [= <- <-]. cbn [pending]. split_and!; try done.
      by eapply stl_ret.
  - intros [= <- <-]. cbn [pending]. split_and!; try done. by eapply stl_ret.
  - done.
  - intros [= <- <-]. cbn [pending]. split_and!; try done.
    by apply stl_failed.
  - done.
Qed.

(** A wait for [theJob] that runs out of time: the call is about to fail
    with the time-out exception. *)
Lemma settling_expire (c c' : Caller) (w : System) (st : JobState) :
  settling st (pending c) -> expire c w = Some c' ->
  settling st (pending c').
Proof.
  intros Hform. destruct c as [p h]. cbn [pending] in Hform.
  unfold expire. cbn [pending history].
  destruct Hform as [|v Hst|v m e Hst|v Hst|m e'|]; try done.
  - unfold completeWith, awaitJob, await. cbn [bind try_catch].
    destruct (finished job0 (queue w)); [done|].
    intros [= <-]. cbn [pending bind try_catch]. by apply stl_failed_logged.
  - unfold populateCache, lift.
    destruct (JSON_stringify v) as [text|err]; cbn [bind try_catch]; done.
Qed.

(** The worker can only take [theJob], and only once. *)
Lemma settling_work (ref : nat) (w w' : System) (st : JobState)
    (stored : bool) :
  queue w = [mkEntry job0 st stored] ->
  served jt ps st (invocations w) ->
  work jobHandlers ref w = Some w' ->
  st = Waiting /\
  exists st' stored',
    queue w' = [mkEntry job0 st' stored'] /\
    served jt ps st' (invocations w').
Proof.
  intros Hq Hserved. unfold work. rewrite Hq.
  destruct ref as [|ref]; [|done]. cbn [lookup list_lookup entry_state].
  destruct st as [|v|e]; [|done|done]. cbn in Hserved.
  intros [= <-]. split; [done|].
  cbn [queue invocations alter list_alter entry_job]. rewrite Hserved.
  unfold handleCacheFirstJob, theJob. cbn [job_data].
  destruct (getHandler jt jobHandlers) as [handler|].
  - destruct (handler ps (ambient w)) as [[v|e] a1];
      cbn [returned handler_calls settle entry_job]; eexists _, _;
      (split; [reflexivity|]); cbn; auto.
  - cbn [returned handler_calls settle entry_job]. eexists _, _.
    split; [reflexivity|]. cbn. auto.
Qed.

Lemma settling_step (l : label) (c c' : Config) :
  inv_settling key rttl jttl jt ps c ->
  step jobHandlers l c = Some c' ->
  inv_settling key rttl jttl jt ps c'.
Proof.
  intros [(Hq & Hnone & Hcalls) | (st & stored & Hq & Hserved & Hforms)].
  - (* nobody is there and nothing can happen *)
    destruct l as [i|ref|i]; cbn [step].
    + by rewrite Hnone.
    + unfold work. by rewrite Hq.
    + by rewrite Hnone.
  - destruct l as [i|ref|i]; cbn [step].
    + destruct (callers c !! i) as [caller|] eqn:Hi; [|done].
      destruct (resume caller (shared c)) as [[caller1 w1]|] eqn:Hres; [|done].
      intros [= <-]. right. exists st, stored. cbn [shared callers].
      destruct (settling_resume _ _ _ _ _ _ Hq
                  (Forall_lookup_1 _ _ _ _ Hforms Hi) Hres)
        as (Hq1 & Hcalls1 & Hform1).
      split; [congruence|]. split; [congruence|]. by apply Forall_insert.
    + destruct (work jobHandlers ref (shared c)) as [w1|] eqn:Hwork; [|done].
      intros [= <-]. right. cbn [shared callers].
      destruct (settling_work _ _ _ _ _ Hq Hserved Hwork)
        as (-> & st' & stored' & Hq1 & Hserved1).
      exists st', stored'. split; [done|]. split; [done|].
      eapply Forall_impl; [exact Hforms|]. intros ?. apply settling_waiting.
    + destruct (callers c !! i) as [caller|] eqn:Hi; [|done].
      destruct (expire caller (shared c)) as [caller1|] eqn:Hexp; [|done].
      intros [= <-]. right. exists st, stored. cbn [shared callers].
      split; [done|]. split; [done|]. apply Forall_insert; [done|].
      exact (settling_expire _ _ _ _ (Forall_lookup_1 _ _ _ _ Hforms Hi) Hexp).
Qed.

Lemma settling_exec (s : list label) (c c' : Config) :
  inv_settling key rttl jttl jt ps c ->
  exec jobHandlers s c = Some c' ->
  inv_settling key rttl jttl jt ps c'.
Proof.
  revert c. induction s as [|l s IH]; intros c Hinv; cbn [exec].
  - by intros [= <-].
  - destruct (step jobHandlers l c) as [c1|] eqn:Hstep; [|done].
    apply IH. by eapply settling_step.
Qed.

(** What a call that is over has answered, given the state of [theJob]. *)
Lemma settling_answer (st : JobState) (c : Caller) (o : outcome Result) :
  settling st (pending c) -> answer c = Some o ->
  match o with
  | Resolved v => st = Completed v
  | Rejected e => e = timedOut jttl
  end.
Proof.
  unfold answer.
  destruct 1 as [|v Hst|v m e Hst|v Hst|m e'|]; cbn; try done.
  - unfold populateCache, lift.
    destruct (JSON_stringify v); cbn; done.
  - by intros [= <-].
  - by intros [= <-].
Qed.

(** X16: [n] calls of [cacheFirst] with the same arguments start against
    a dispatcher whose queue is empty.  When all of them are suspended in
    [job.finished()] before the worker takes a job (they looked the job
    up, or enqueued it, while it was waiting), then whatever happens next,
    waits that run out of time included, one job at most was created and
    the handler ran once at most; the calls that returned all returned
    the same result, and the handler had run exactly once by then; the
    calls that failed all failed with the time-out exception; and every
    one of the calls had missed the cache. *)
Theorem single_flight_while_job_waits (n : nat) (s : Store) (a : Ambient)
    (s1 s2 : list label) (c1 c2 : Config) :
  forallb (fun l => negb (is_work l)) s1 = true ->
  exec jobHandlers s1
    (launch n (cacheFirst key rttl jttl jt ps) (mkSystem s [] a [])) = Some c1 ->
  forallb awaits_job (callers c1) = true ->
  exec jobHandlers s2 c1 = Some c2 ->
  length (queue (shared c2)) <= 1 /\
  length (invocations (shared c2)) <= 1 /\
  (forall i j ci cj vi vj,
     callers c2 !! i = Some ci -> callers c2 !! j = Some cj ->
     answer ci = Some (Resolved vi) -> answer cj = Some (Resolved vj) ->
     vi = vj) /\
  (forall i ci e,
     callers c2 !! i = Some ci -> answer ci = Some (Rejected e) ->
     e = timedOut jttl) /\
  (forall i ci v,
     callers c2 !! i = Some ci -> answer ci = Some (Resolved v) ->
     invocations (shared c2) = [(jt, ps)]) /\
  Forall (fun caller => observed_miss key caller = true) (callers c2).
Proof.
  intros Hquiet Hexec1 Hwait Hexec2.
  apply forallb_true_Forall in Hwait.
  pose proof (scheduling_exec _ _ _ Hquiet (launch_scheduling n s a) Hexec1)
    as Hinv1.
  destruct (scheduling_settling _ Hinv1 Hwait) as [Hinv2 Hseen].
  pose proof (observed_miss_exec _ _ _ Hseen Hexec2) as Hseen2.
  pose proof (settling_exec _ _ _ Hinv2 Hexec2)
    as [(Hq & Hnone & Hcalls) | (st & stored & Hq & Hserved & Hforms)].
  - rewrite Hq, Hcalls. rewrite Hnone in *. cbn. split_and!; try lia; try done.
  - rewrite Hq. cbn [length]. split_and!; [| | | | |done].
    + lia.
    + destruct st; cbn in Hserved; [| |destruct Hserved as [Hserved|Hserved]];
        rewrite Hserved; cbn; lia.
    + intros i j ci cj vi vj Hi Hj Hoi Hoj.
      pose proof (settling_answer _ _ _ (Forall_lookup_1 _ _ _ _ Hforms Hi) Hoi)
        as Hi'.
      pose proof (settling_answer _ _ _ (Forall_lookup_1 _ _ _ _ Hforms Hj) Hoj)
        as Hj'.
      cbn in Hi', Hj'. congruence.
    + intros i ci e Hi Ho.
      exact (settling_answer _ _ _ (Forall_lookup_1 _ _ _ _ Hforms Hi) Ho).
    + intros i ci v Hi Ho.
      pose proof (settling_answer _ _ _ (Forall_lookup_1 _ _ _ _ Hforms Hi) Ho)
        as ->.
      exact Hserved.
Qed.

End SingleFlight.

(** ** The concrete application, run *)

(** C2 at a cached ["7"] for the key ["user:42"]. *)
Lemma cache_hit_short_circuits_witness :
  let E := system (D := memoryDriver false false false) demoHandlers in
  let w := emptySystem (memoryDriver false false false) {["user:42" := "7"]} in
  let r := run E (cacheFirst "user:42" 3600%Z 5000%Z "fetchUser" 42) w in
  r = mkRun (Resolved 7) w [Called (CacheGet "user:42") (Resolved (Some "7"))] /\
  Forall (fun ev => is_queue_call ev = false /\ is_cache_set ev = false /\
                    is_job_wait ev = false) (trace r).
Proof.
  intros E w.
  apply (cache_hit_short_circuits E "user:42" 3600%Z 5000%Z "fetchUser" 42
           w w "7" 7); reflexivity.
Defined.



(** C4, as the claim has it, fails: the driver's [get] rejects, and the
    call fails with that rejection without a single call to the queue. *)
Lemma cache_read_failure_counterexample :
  let E := system (D := memoryDriver true false false) demoHandlers in
  let w := emptySystem (memoryDriver true false false) ∅ in
  let r := run E (cacheFirst "user:42" 3600%Z 5000%Z "fetchUser" 42) w in
  perform E _ (CacheGet "user:42") w = (Rejected (External "StoreError"), w) /\
  settled r = Rejected (External "StoreError") /\
  existsb is_queue_call (trace r) = false /\
  invocations (world r) = [].
Proof. intros E w r. split_and!; reflexivity. Qed.

Lemma cache_read_failure_propagates_witness :
  let E := system (D := memoryDriver true false false) demoHandlers in
  let w := emptySystem (memoryDriver true false false) ∅ in
  run E (cacheFirst "user:42" 3600%Z 5000%Z "fetchUser" 42) w =
    mkRun (Rejected (External "StoreError")) w
      [Called (CacheGet "user:42") (Rejected (External "StoreError"))].
Proof.
  intros E w.
  apply (cache_read_failure_propagates E "user:42" 3600%Z 5000%Z "fetchUser" 42
           w w (External "StoreError")); reflexivity.
Defined.

(** C5 at a job that fails. *)
Lemma failed_wait_times_out_witness :
  let E := system (D := memoryDriver false false false) demoHandlers in
  let w := emptySystem (memoryDriver false false false) ∅ in
  let r := run E (cacheFirst "user:42" 3600%Z 5000%Z "nope" 42) w in
  settled r =
    Rejected (InternalServerErrorException
                ("Job timed out after " +:+ number_toString 5000%Z +:+ " ms")) /\
  Forall (fun ev => is_cache_set ev = false) (trace r).
Proof.
  intros E w.
  apply (failed_wait_times_out E "user:42" 3600%Z 5000%Z "nope" 42 w);
    reflexivity.
Defined.

(** C6, as the claim has it, fails: [add] rejects and the second lookup
    rejects too, so that no job is found; the call does not fail with
    "Failed to schedule cache job" but with the rejection of the lookup. *)
Lemma failed_enqueue_counterexample :
  let r := run lostQueue (cacheFirst "user:42" 3600%Z 5000%Z "fetchUser" 42)
             0 in
  trace r =
    [Called (CacheGet "user:42") (Resolved None);
     Called (QueueGetJob "user:42") (Resolved None);
     Called (QueueAdd "cacheFirstJob" (mkPayload "fetchUser" 42 "user:42")
               (mkOpts "user:42" true 5000%Z))
       (Rejected (External "DuplicateIdError"));
     Called (QueueGetJob "user:42") (Rejected (External "QueueDown"))] /\
  settled r = Rejected (External "QueueDown") /\
  settled r <>
    Rejected (InternalServerErrorException "Failed to schedule cache job").
Proof.
  intros r.
  assert (settled r = Rejected (External "QueueDown")) as Hsettled
    by reflexivity.
  split; [reflexivity|]. split; [exact Hsettled|].
  rewrite Hsettled. discriminate.
Qed.

(** C6 at a queue whose [add] rejects: with the job found at the second
    lookup the call returns what the wait resolves with; with no job it
    fails to schedule; with a rejected lookup it fails with that
    rejection. *)
Lemma failed_enqueue_recovers_witness :
  let call := cacheFirst "user:42" 3600%Z 5000%Z "fetchUser" 42 in
  let attempt o :=
    [Called (CacheGet "user:42") (Resolved None);
     Called (QueueGetJob "user:42") (Resolved None);
     Called (QueueAdd "cacheFirstJob" (mkPayload "fetchUser" 42 "user:42")
               (mkOpts "user:42" true 5000%Z))
       (Rejected (External "DuplicateIdError"));
     Called (QueueGetJob "user:42") o] in
  (settled (run (racingQueue (Some someJob)) call 0) = Resolved 7 /\
   exists rest,
     trace (run (racingQueue (Some someJob)) call 0) =
       attempt (Resolved (Some someJob)) ++
       Called (JobFinished someJob) (Resolved 7) :: rest) /\
  run (racingQueue None) call 0 =
    mkRun (Rejected (InternalServerErrorException
                       "Failed to schedule cache job"))
      4 (attempt (Resolved None)) /\
  run lostQueue call 0 =
    mkRun (Rejected (External "QueueDown")) 4
      (attempt (Rejected (External "QueueDown"))).
Proof.
  intros call attempt. split_and!.
  - apply (failed_enqueue_recovers (racingQueue (Some someJob))
             "user:42" 3600%Z 5000%Z "fetchUser" 42
             0 [Called (CacheGet "user:42") (Resolved None)] 1 2 3
             (External "DuplicateIdError") eq_refl eq_refl eq_refl).
  - apply (failed_enqueue_recovers (racingQueue (Some someJob))
             "user:42" 3600%Z 5000%Z "fetchUser" 42
             0 [Called (CacheGet "user:42") (Resolved None)] 1 2 3
             (External "DuplicateIdError") eq_refl eq_refl eq_refl).
  - exact (failed_enqueue_recovers (racingQueue None)
             "user:42" 3600%Z 5000%Z "fetchUser" 42
             0 [Called (CacheGet "user:42") (Resolved None)] 1 2 3
             (External "DuplicateIdError") eq_refl eq_refl eq_refl).
  - exact (failed_enqueue_recovers lostQueue
             "user:42" 3600%Z 5000%Z "fetchUser" 42
             0 [Called (CacheGet "user:42") (Resolved None)] 1 2 3
             (External "DuplicateIdError") eq_refl eq_refl eq_refl).
Defined.

(** C7 at a driver whose [set] rejects. *)
Lemma failed_cache_write_is_swallowed_witness :
  let E := system (D := memoryDriver false true false) demoHandlers in
  let w := emptySystem (memoryDriver false true false) ∅ in
  let r := run E (cacheFirst "user:42" 3600%Z 5000%Z "fetchUser" 42) w in
  settled r = Resolved 1 /\
  last (trace r) =
    Some (Logged ("Error setting cache for key " +:+ "user:42")
            (External "StoreError")).
Proof.
  intros E w.
  apply (failed_cache_write_is_swallowed E "user:42" 3600%Z 5000%Z
           "fetchUser" 42 w 1 (External "StoreError")).
  - change (1 ∈ [1]). apply list_elem_of_here.
  - change (External "StoreError" ∈ [External "StoreError"]).
    apply list_elem_of_here.
Defined.



(** C1: the code breaks the claim.  Two calls for ["user:42"] both miss
    the cache; the second one looks the job up only after the job of the
    first has completed and was removed.  The handler runs twice and the
    calls get different results. *)
Lemma single_flight_counterexample :
  let D := memoryDriver false false false in
  let c0 := launch 2 (cacheFirst "user:42" 3600%Z 5000%Z "fetchUser" 42)
              (emptySystem D ∅) in
  match exec demoHandlers racySchedule c0 with
  | Some c =>
      forallb (observed_miss "user:42") (callers c) = true /\
      answer <$> callers c = [Some (Resolved 1); Some (Resolved 2)] /\
      invocations (shared c) = [("fetchUser", 42); ("fetchUser", 42)]
  | None => False
  end.
Proof. vm_compute. by split_and!. Qed.

(** Two calls that both wait for the job before it runs. *)
Lemma single_flight_while_job_waits_witness :
  let D := memoryDriver false false false in
  let c0 := launch 2 (cacheFirst "user:42" 3600%Z 5000%Z "fetchUser" 42)
              (emptySystem D ∅) in
  exists c1 c2,
    exec demoHandlers sharingSchedule.1 c0 = Some c1 /\
    forallb awaits_job (callers c1) = true /\
    exec demoHandlers sharingSchedule.2 c1 = Some c2 /\
    answer <$> callers c2 = [Some (Resolved 1); Some (Resolved 1)] /\
    length (invocations (shared c2)) <= 1.
Proof.
  intros D c0.
  assert (match exec demoHandlers sharingSchedule.1 c0 with
          | Some c1 =>
              match exec demoHandlers sharingSchedule.2 c1 with
              | Some c2 =>
                  Some (forallb awaits_job (callers c1), answer <$> callers c2)
              | None => None
              end
          | None => None
          end = Some (true, [Some (Resolved 1); Some (Resolved 1)])) as Hrun.
  { vm_compute. reflexivity. }
  destruct (exec demoHandlers sharingSchedule.1 c0) as [c1|] eqn:Hexec1;
    [|discriminate].
  destruct (exec demoHandlers sharingSchedule.2 c1) as [c2|] eqn:Hexec2;
    [|discriminate].
  injection Hrun as Hwait Hanswers.
  exists c1, c2. split_and!; try done.
  eapply (single_flight_while_job_waits demoHandlers "user:42" 3600%Z 5000%Z
            "fetchUser" 42 2 ∅ 0 sharingSchedule.1 sharingSchedule.2 c1 c2
            eq_refl Hexec1 Hwait Hexec2).
Defined.

(** ** What a call of [cacheFirst] does and never does *)

Section Conduct.
Context `{R : Runtime}.
Variable E : Env.
Implicit Types (key jt : string) (rttl jttl : number) (ps : Params).
Implicit Types (w : World E).

(** X1: the only ways a call fails: the rejection of [get] or of a job lookup,
    passed on as it is, or one of the two exceptions of the service.  The
    errors of [add], of the job, of [JSON.parse], [JSON.stringify] and
    [set] never reach the caller. *)
Theorem cacheFirst_failures key rttl jttl jt ps w e :
  let r := run E (cacheFirst key rttl jttl jt ps) w in
  settled r = Rejected e ->
  e = InternalServerErrorException "Failed to schedule cache job" \/
  e = InternalServerErrorException
        ("Job timed out after " +:+ number_toString jttl +:+ " ms") \/
  e ∈ omap get_error (trace r) \/
  e ∈ omap lookup_error (trace r).
Proof.
  intros r. subst r.
  unfold cacheFirst, checkCache, onMiss, scheduleJob, enqueueJob, recoverJob,
    completeWith, awaitJob, populateCache, await, lift.
  cbn [bind try_catch run].
  repeat (case_match; cbn); intros [= <-];
    first [ by left | by right; left
          | right; right; left; by apply list_elem_of_here
          | right; right; right; by apply list_elem_of_here ].
Qed.

(** X2: a call reads the cache exactly once, and that is the first thing it
    does. *)
Theorem cacheFirst_reads_once key rttl jttl jt ps w :
  let r := run E (cacheFirst key rttl jttl jt ps) w in
  omap get_call (trace r) = [key] /\
  exists o rest, trace r = Called (CacheGet key) o :: rest.
Proof.
  intros r. subst r.
  unfold cacheFirst, checkCache, onMiss, scheduleJob, enqueueJob, recoverJob,
    completeWith, awaitJob, populateCache, await, lift.
  cbn [bind try_catch run].
  repeat (case_match; cbn); (split; [done|by eexists _, _]).
Qed.

(** X3: a call enqueues at most one job, and only ever the job named
    ["cacheFirstJob"] that carries the call's own type, parameters and key,
    with the cache key as job id, removal on completion, and the job
    time-out. *)
Theorem cacheFirst_enqueues_own_job key rttl jttl jt ps w :
  let r := run E (cacheFirst key rttl jttl jt ps) w in
  omap add_call (trace r) = [] \/
  omap add_call (trace r) =
    [("cacheFirstJob", mkPayload jt ps key, mkOpts key true jttl)].
Proof.
  intros r. subst r.
  unfold cacheFirst, checkCache, onMiss, scheduleJob, enqueueJob, recoverJob,
    completeWith, awaitJob, populateCache, await, lift.
  cbn [bind try_catch run].
  repeat (case_match; cbn); first [by left | by right].
Qed.

(** X4: the cache is written at most once per call, under the call's key and
    TTL, and only with the text of a result that [job.finished()] has
    resolved with: never on a hit, never after a failed job. *)
Theorem cacheFirst_writes_job_result key rttl jttl jt ps w :
  let r := run E (cacheFirst key rttl jttl jt ps) w in
  omap set_call (trace r) = [] \/
  exists result text,
    omap wait_result (trace r) = [result] /\
    JSON_stringify result = Resolved text /\
    omap set_call (trace r) = [(key, text, rttl)] /\
    settled r = Resolved result.
Proof.
  intros r. subst r.
  unfold cacheFirst, checkCache, onMiss, scheduleJob, enqueueJob, recoverJob,
    completeWith, awaitJob, populateCache, await, lift.
  cbn [bind try_catch run].
  repeat (case_match; cbn); simplify_eq;
    first [by left | right; by eexists _, _].
Qed.

(** X5: what a call returns is either the parsed text of the cache, without
    anything else done, or the result [job.finished()] resolved with. *)
Theorem cacheFirst_result_provenance key rttl jttl jt ps w v :
  let r := run E (cacheFirst key rttl jttl jt ps) w in
  settled r = Resolved v ->
  (exists text,
     trace r = [Called (CacheGet key) (Resolved (Some text))] /\
     JSON_parse text = Resolved v) \/
  omap wait_result (trace r) = [v].
Proof.
  intros r. subst r. rewrite run_cacheFirst, run_checkCache.
  destruct (perform E _ (CacheGet key) w) as [[cached|e] w1]; [|done].
  destruct (truthy cached) eqn:Htruthy.
  - destruct cached as [text|]; [|done]. cbn.
    destruct (JSON_parse text) as [v'|err] eqn:Hparse; cbn.
    + intros [= <-]. left. by exists text.
    + unfold onMiss, scheduleJob, enqueueJob, recoverJob, completeWith,
        awaitJob, populateCache, await, lift.
      cbn [bind try_catch run].
      repeat (case_match; cbn); intros [= <-]; simplify_eq; by right.
  - cbn. unfold onMiss, scheduleJob, enqueueJob, recoverJob, completeWith,
      awaitJob, populateCache, await, lift.
    cbn [bind try_catch run].
    repeat (case_match; cbn); intros [= <-]; simplify_eq; by right.
Qed.

(** X6: when the lookup after a miss finds a job under the cache key, that job
    is the one waited for and nothing is enqueued: the call's own job type
    and parameters play no part in what it does or returns. *)
Theorem existing_job_is_joined key rttl jttl jt ps jt' ps' w w1 t0 w2 job :
  run E (checkCache key) w = mkRun (Resolved None) w1 t0 ->
  perform E _ (QueueGetJob key) w1 = (Resolved (Some job), w2) ->
  run E (cacheFirst key rttl jttl jt ps) w =
    after (t0 ++ [Called (QueueGetJob key) (Resolved (Some job))])
      (run E (completeWith key rttl jttl job) w2) /\
  run E (cacheFirst key rttl jttl jt' ps') w =
    run E (cacheFirst key rttl jttl jt ps) w /\
  omap add_call (trace (run E (cacheFirst key rttl jttl jt ps) w)) = [].
Proof.
  intros Hcheck Hlookup.
  assert (forall jt0 ps0,
    run E (cacheFirst key rttl jttl jt0 ps0) w =
      after (t0 ++ [Called (QueueGetJob key) (Resolved (Some job))])
        (run E (completeWith key rttl jttl job) w2)) as Hrun.
  { intros jt0 ps0. rewrite run_cacheFirst, Hcheck.
    cbn [settled world trace].
    unfold onMiss, scheduleJob, await. cbn [bind try_catch run].
    rewrite Hlookup. cbn [bind]. by rewrite after_after. }
  split; [apply Hrun|]. split; [by rewrite !Hrun|].
  rewrite Hrun. unfold after. cbn [trace]. rewrite !omap_app.
  assert (omap add_call t0 = []) as ->.
  { revert Hcheck. rewrite run_checkCache.
    destruct (perform E _ (CacheGet key) w) as [[cached|e] w0]; [|done].
    destruct (truthy cached); [|by intros [= <- <-]].
    destruct (JSON_parse (default EmptyString cached)); by intros [= <- <-]. }
  unfold completeWith, awaitJob, populateCache, await, lift.
  cbn [bind try_catch run].
  repeat (case_match; cbn); done.
Qed.

End Conduct.

(** ** The registry and the processor *)

Section Registry.
Context `{R : Runtime}.
Implicit Types (jobHandlers : gmap string CacheJobHandler).

Lemma getHandler_registerHandler_eq jobHandlers (jt : string)
    (handler : CacheJobHandler) :
  getHandler jt (registerHandler jt handler jobHandlers) = Some handler.
Proof. unfold getHandler, registerHandler. apply lookup_insert_eq. Qed.

(** X8: [registerHandler] then [getHandler]: the handler registered last under
    a job type is the one found, and the other job types are left as they
    were. *)
Theorem getHandler_registerHandler jobHandlers (jt jt' : string)
    (handler : CacheJobHandler) :
  getHandler jt (registerHandler jt' handler jobHandlers) =
    if decide (jt' = jt) then Some handler else getHandler jt jobHandlers.
Proof. unfold getHandler, registerHandler. apply lookup_insert. Qed.

(** X9: the processor on a job whose type was registered: it calls the handler
    registered last under that type, once, with the job's parameters, and
    returns what the handler resolves with or throws what it rejects with,
    whatever was registered before. *)
Theorem processor_runs_last_registered jobHandlers
    (handler : CacheJobHandler) (job : Job Params number) (s : Ambient) :
  handleCacheFirstJob
    (registerHandler (jobType (job_data job)) handler jobHandlers) job s =
    mkProcessed (handler (params (job_data job)) s).1
      (handler (params (job_data job)) s).2
      [(jobType (job_data job), params (job_data job))].
Proof.
  unfold handleCacheFirstJob. destruct (job_data job) as [jt ps key].
  cbn [jobType params]. rewrite getHandler_registerHandler_eq.
  by destruct (handler ps s) as [[result|err] s1].
Qed.

End Registry.

(** ** Whole calls against the dispatcher and the worker *)

Section ServedCalls.
Context `{R : Runtime} `{D : !ICacheDriver}.
Variable jobHandlers : gmap string CacheJobHandler.
Implicit Types (key jt : string) (rttl jttl : number) (ps : Params).
Implicit Types (w : System) (q : list JobEntry).

Local Abbreviation sys := (system jobHandlers).

Lemma serve_set key text rttl w :
  serve jobHandlers _ (CacheSet key text rttl) w =
    ((set key text rttl (store w)).1,
     mkSystem (set key text rttl (store w)).2 (queue w) (ambient w)
       (invocations w)).
Proof. unfold serve, respond. by destruct (set key text rttl (store w)). Qed.


(** The cache check of a call that misses. *)
Lemma served_check_miss key w cached s1 :
  get key (store w) = (Resolved cached, s1) ->
  is_miss cached = true ->
  exists t0,
    run sys (checkCache key) w =
      mkRun (Resolved None) (mkSystem s1 (queue w) (ambient w) (invocations w))
        t0 /\
    omap set_call t0 = [] /\ omap wait_error t0 = [] /\
    omap wait_result t0 = [].
Proof.
  intros Hget Hmiss. rewrite run_checkCache. cbn [perform system].
  rewrite serve_get, Hget. cbn [fst snd]. unfold is_miss in Hmiss.
  destruct cached as [text|]; [|by eexists].
  destruct (JSON_parse text) as [v|err] eqn:Hparse; [done|].
  destruct text as [|c text]; cbn; rewrite ?Hparse; by eexists.
Qed.

(** The cache check of a call that hits. *)
Lemma served_check_hit key w text s1 v :
  get key (store w) = (Resolved (Some text), s1) ->
  JSON_parse text = Resolved v ->
  run sys (checkCache key) w =
    mkRun (Resolved (Some v))
      (mkSystem s1 (queue w) (ambient w) (invocations w))
      [Called (CacheGet key) (Resolved (Some text))].
Proof.
  intros Hget Hparse. rewrite run_checkCache. cbn [perform system].
  rewrite serve_get, Hget. cbn [fst snd].
  rewrite (JSON_parse_truthy _ _ Hparse). cbn. by rewrite Hparse.
Qed.

(** A miss with no job under the key: the job is enqueued and the worker
    runs it while the call waits. *)
Lemma served_miss_enqueues key rttl jttl jt ps w s q a calls :
  getJob key q = None ->
  let job := mkJob (length q) "cacheFirstJob" (mkPayload jt ps key)
               (mkOpts key true jttl) in
  let p := handleCacheFirstJob jobHandlers job a in
  run sys (onMiss key rttl jttl jt ps) (mkSystem s q a calls) =
    after [Called (QueueGetJob key) (Resolved None);
           Called (QueueAdd "cacheFirstJob" (mkPayload jt ps key)
                     (mkOpts key true jttl)) (Resolved job);
           Called (JobFinished job) (returned p)]
      (run sys
         (match returned p with
          | Resolved result =>
              bind (populateCache key rttl result) (fun _ => Ret result)
          | Rejected err =>
              LoggerError ("Job for key " +:+ key +:+ " failed or timed out")
                err (Throw (timedOut jttl))
          end)
         (mkSystem s (q ++ [settle (returned p) (mkEntry job Waiting true)])
            (ambient_after p) (calls ++ handler_calls p))).
Proof.
  intros Hfree job p.
  unfold onMiss, scheduleJob, enqueueJob, recoverJob, completeWith, awaitJob,
    await.
  cbn [bind try_catch run perform system].
  rewrite serve_getJob. cbn [queue bind try_catch run perform system].
  rewrite Hfree. cbn [bind try_catch run perform system].
  rewrite serve_add_fresh by done.
  cbn [queue store ambient invocations bind try_catch run perform system].
  rewrite serve_finished_last by done. cbv zeta. fold job. fold p.
  rewrite !after_after. cbn [app].
  by destruct (returned p).
Qed.

(** The end of a call whose job has completed. *)
Lemma served_populate key rttl (result : Result) text w :
  JSON_stringify result = Resolved text ->
  run sys (bind (populateCache key rttl result) (fun _ => Ret result)) w =
    mkRun (Resolved result)
      (mkSystem (set key text rttl (store w)).2 (queue w) (ambient w)
         (invocations w))
      (Called (CacheSet key text rttl) (set key text rttl (store w)).1 ::
       match (set key text rttl (store w)).1 with
       | Resolved _ => []
       | Rejected err =>
           [Logged ("Error setting cache for key " +:+ key) err]
       end).
Proof.
  intros Htext. unfold populateCache, lift, await. rewrite Htext.
  cbn [bind try_catch run perform system]. rewrite serve_set.
  by destruct (set key text rttl (store w)) as [[[]|err] s2].
Qed.



(** X12: computed once, then served from the cache: after a miss was computed
    and its [set] resolved, a driver that gives the written text back and
    a text that parses back to the result make the next call for the key
    return that result from the cache alone, whatever job type and
    parameters it names; the handler has run once in all. *)
Theorem second_call_hits key rttl jttl jt ps rttl' jttl' jt' ps' w cached s1
    handler result a1 text s2 s3 :
  get key (store w) = (Resolved cached, s1) ->
  is_miss cached = true ->
  getJob key (queue w) = None ->
  getHandler jt jobHandlers = Some handler ->
  handler ps (ambient w) = (Resolved result, a1) ->
  JSON_stringify result = Resolved text ->
  set key text rttl s1 = (Resolved tt, s2) ->
  get key s2 = (Resolved (Some text), s3) ->
  JSON_parse text = Resolved result ->
  let r1 := run sys (cacheFirst key rttl jttl jt ps) w in
  let r2 := run sys (cacheFirst key rttl' jttl' jt' ps') (world r1) in
  settled r1 = Resolved result /\
  settled r2 = Resolved result /\
  trace r2 = [Called (CacheGet key) (Resolved (Some text))] /\
  invocations (world r2) = invocations w ++ [(jt, ps)] /\
  queue (world r2) = queue (world r1).
Proof.
  intros Hget Hmiss Hfree Hhandler Hresult Htext Hset Hget2 Hparse r1 r2.
  assert (settled r1 = Resolved result /\
          store (world r1) = s2 /\
          invocations (world r1) = invocations w ++ [(jt, ps)])
    as (Hr1 & Hstore & Hcalls).
  { subst r1.
    destruct (served_check_miss _ _ _ _ Hget Hmiss) as (t0 & Hcheck & _).
    rewrite run_cacheFirst. cbv zeta. rewrite Hcheck.
    cbn [settled world trace].
    rewrite served_miss_enqueues by done. cbv zeta.
    unfold handleCacheFirstJob. cbn [job_data]. rewrite Hhandler, Hresult.
    cbn [returned ambient_after handler_calls].
    rewrite (served_populate _ _ _ _ _ Htext).
    unfold after. cbn [settled world trace store ambient invocations].
    by rewrite Hset. }
  split; [done|]. subst r2.
  rewrite run_cacheFirst. cbv zeta.
  rewrite (served_check_hit key (world r1) text s3 result)
    by (by rewrite ?Hstore).
  cbn [settled world trace queue invocations]. by rewrite Hcalls.
Qed.


End ServedCalls.

(** ** Any number of calls under any schedule *)

Section Budget.
Context `{R : Runtime} `{D : !ICacheDriver}.
Variable jobHandlers : gmap string CacheJobHandler.
Variables (key : string) (rttl jttl : number) (jt : string) (ps : Params).

Local Abbreviation stage := (stage key rttl jttl jt ps).

Lemma sum_list_with_insert {A : Type} (f : A -> nat) (l : list A) (i : nat)
    (x y : A) :
  l !! i = Some x ->
  sum_list_with f (<[i := y]> l) + f x = sum_list_with f l + f y.
Proof.
  revert i. induction l as [|z l IH]; intros [|i] Hi; simplify_eq/=;
    [lia|].
  specialize (IH i Hi). lia.
Qed.

Lemma sum_list_with_alter {A : Type} (f : A -> nat) (g : A -> A)
    (l : list A) (i : nat) (x : A) :
  l !! i = Some x ->
  sum_list_with f (alter g i l) + f x = sum_list_with f l + f (g x).
Proof.
  revert i. induction l as [|z l IH]; intros [|i] Hi; simplify_eq/=;
    [lia|].
  specialize (IH i Hi). lia.
Qed.

Lemma sum_credit_length (q : list JobEntry) :
  sum_list_with (fun e => credit (is_settled e)) q <= length q.
Proof.
  induction q as [|e q IH]; cbn; [done|].
  destruct (is_settled e); cbn; lia.
Qed.

(** One step of a call: it stays a call of [cacheFirst]; it appends one
    waiting job at most, and only if it could still enqueue, which it no
    longer can afterwards; it runs no handler. *)
Lemma stage_resume (b : bool) (c c' : Caller) (w w' : System) :
  stage b (pending c) ->
  resume c w = Some (c', w') ->
  invocations w' = invocations w /\
  exists b',
    stage b' (pending c') /\
    ((queue w' = queue w /\ credit b' <= credit b) \/
     (exists job, queue w' = queue w ++ [mkEntry job Waiting true] /\
                  b = true /\ b' = false)).
Proof.
  intros Hform. destruct c as [p h]. cbn [pending] in Hform.
  unfold resume. cbn [pending history].
  destruct Hform as [|m e| | | |job|v|m e v|m e e'|v|e].
  - unfold cacheFirst, checkCache, await. cbn [bind try_catch respond].
    destruct (get key (store w)) as [[cached|e] s1]; intros [= <- <-];
      cbn [pending queue invocations]; (split; [done|]).
    + destruct (truthy cached); cbn [bind try_catch].
      * unfold lift. destruct (JSON_parse (default EmptyString cached));
          cbn [bind try_catch].
        -- exists false. split; [constructor|]. left. cbn. split; [done|lia].
        -- exists true. split; [constructor|]. by left.
      * exists true. split; [constructor|]. by left.
    + exists false. split; [constructor|]. left. cbn. split; [done|lia].
  - intros [= <- <-]. cbn [pending]. split; [done|].
    exists true. split; [constructor|]. by left.
  - unfold onMiss, scheduleJob, await. cbn [bind try_catch respond].
    intros [= <- <-]. cbn [pending]. split; [done|].
    destruct (getJob key (queue w)) as [job|]; cbn [bind].
    + exists false. split; [constructor|]. left. cbn. split; [done|lia].
    + exists true. split; [apply stg_enqueue|]. by left.
  - unfold enqueueJob, await. cbn [bind try_catch respond]. unfold add.
    cbn [jobId].
    destruct (getJob key (queue w)) as [job|]; intros [= <- <-];
      cbn [pending queue invocations bind try_catch]; (split; [done|]);
      exists false.
    + split; [apply stg_recover|]. left. cbn. split; [done|lia].
    + split; [constructor|]. right. by eexists.
  - unfold recoverJob, await. cbn [bind try_catch respond].
    intros [= <- <-]. cbn [pending]. split; [done|]. exists false.
    destruct (getJob key (queue w)) as [job|]; cbn [bind];
      (split; [constructor|by left]).
  - unfold completeWith, awaitJob, await. cbn [bind try_catch respond].
    destruct (finished job (queue w)) as [[v|e]|]; [| |done];
      intros [= <- <-]; cbn [pending bind try_catch]; (split; [done|]);
      exists false; (split; [constructor|by left]).
  - unfold populateCache, lift.
    destruct (JSON_stringify v) as [text|err]; cbn [bind try_catch].
    + unfold await. cbn [bind try_catch respond].
      destruct (set key text rttl (store w)) as [[u|err] s1];
        intros [= <- <-]; cbn [pending queue invocations bind try_catch];
        (split; [done|]); exists false; (split; [constructor|by left]).
    + intros [= <- <-]. cbn [pending]. split; [done|]. exists false.
      split; [constructor|by left].
  - intros [= <- <-]. cbn [pending]. split; [done|]. exists false.
    split; [constructor|by left].
  - intros [= <- <-]. cbn [pending]. split; [done|]. exists false.
    split; [constructor|by left].
  - done.
  - done.
Qed.

(** A wait that runs out of time: the call can no longer enqueue. *)
Lemma stage_expire (b : bool) (c c' : Caller) (w : System) :
  stage b (pending c) -> expire c w = Some c' ->
  b = false /\ stage false (pending c').
Proof.
  intros Hform. destruct c as [p h]. cbn [pending] in Hform.
  unfold expire. cbn [pending history].
  destruct Hform as [|m e| | | |job|v|m e v|m e e'|v|e]; try done.
  - unfold completeWith, awaitJob, await. cbn [bind try_catch].
    destruct (finished job (queue w)); [done|].
    intros [= <-]. cbn [pending bind try_catch]. split; [done|constructor].
  - unfold populateCache, lift.
    destruct (JSON_stringify v) as [text|err]; cbn [bind try_catch]; done.
Qed.

(** The processor calls one handler at most. *)
Lemma handleCacheFirstJob_calls (job : Job Params number) (a : Ambient) :
  length (handler_calls (handleCacheFirstJob jobHandlers job a)) <= 1.
Proof.
  unfold handleCacheFirstJob. destruct (job_data job) as [jt0 ps0 key0].
  destruct (getHandler jt0 jobHandlers) as [handler|]; [|cbn; lia].
  destruct (handler ps0 a) as [[v|e] a1]; cbn; lia.
Qed.

Lemma budget_step (n : nat) (l : label) (c c' : Config) :
  inv_budget key rttl jttl jt ps n c ->
  step jobHandlers l c = Some c' ->
  inv_budget key rttl jttl jt ps n c'.
Proof.
  intros (flags & Hstages & Hjobs & Hruns).
  destruct l as [i|ref|i]; cbn [step].
  - destruct (callers c !! i) as [caller|] eqn:Hi; [|done].
    destruct (resume caller (shared c)) as [[caller1 w1]|] eqn:Hres; [|done].
    intros [= <-]. unfold inv_budget. cbn [shared callers].
    destruct (Forall2_lookup_r _ _ _ _ _ Hstages Hi) as (b & Hb & Hstage).
    destruct (stage_resume _ _ _ _ _ Hstage Hres)
      as (Hcalls & b' & Hstage' & Hqueue).
    exists (<[i := b']> flags). split; [by apply Forall2_insert|].
    pose proof (sum_list_with_insert credit flags i b b' Hb) as Hsum.
    rewrite Hcalls.
    destruct Hqueue as [[-> Hcredit] | (job & -> & -> & ->)].
    + split; [lia|done].
    + rewrite length_app, sum_list_with_app. cbn in *. split; lia.
  - unfold work.
    destruct (queue (shared c) !! ref) as [e|] eqn:Hentry; [|done].
    destruct (entry_state e) eqn:Hstate; try done.
    intros [= <-]. exists flags. cbn [shared callers queue invocations].
    split; [done|]. rewrite length_alter. split; [done|].
    pose proof (sum_list_with_alter (fun e => credit (is_settled e))
                  (settle (returned (handleCacheFirstJob jobHandlers
                                       (entry_job e) (ambient (shared c)))))
                  _ _ _ Hentry) as Hsum.
    pose proof (handleCacheFirstJob_calls (entry_job e) (ambient (shared c)))
      as Hone.
    rewrite length_app.
    assert (is_settled e = false) as Hwaiting
      by (unfold is_settled; by rewrite Hstate).
    cbv beta in Hsum. rewrite Hwaiting in Hsum. cbn [credit] in Hsum.
    assert (forall o, is_settled (settle o e) = true) as Hsettled
      by (by intros [v|err]).
    rewrite Hsettled in Hsum. cbn [credit] in Hsum. lia.
  - destruct (callers c !! i) as [caller|] eqn:Hi; [|done].
    destruct (expire caller (shared c)) as [caller1|] eqn:Hexp; [|done].
    intros [= <-]. unfold inv_budget. cbn [shared callers].
    destruct (Forall2_lookup_r _ _ _ _ _ Hstages Hi) as (b & Hb & Hstage).
    destruct (stage_expire _ _ _ _ Hstage Hexp) as (-> & Hstage').
    exists (<[i := false]> flags). split; [by apply Forall2_insert|].
    pose proof (sum_list_with_insert credit flags i false false Hb) as Hsum.
    split; [lia|done].
Qed.

Lemma budget_exec (n : nat) (s : list label) (c c' : Config) :
  inv_budget key rttl jttl jt ps n c ->
  exec jobHandlers s c = Some c' ->
  inv_budget key rttl jttl jt ps n c'.
Proof.
  revert c. induction s as [|l s IH]; intros c Hinv; cbn [exec].
  - by intros [= <-].
  - destruct (step jobHandlers l c) as [c1|] eqn:Hstep; [|done].
    apply IH. by eapply budget_step.
Qed.

Lemma launch_budget (n : nat) (s : Store) (a : Ambient) :
  inv_budget key rttl jttl jt ps n
    (launch n (cacheFirst key rttl jttl jt ps) (mkSystem s [] a [])).
Proof.
  exists (replicate n true). unfold launch. cbn [callers shared queue invocations].
  split_and!; [| |done].
  - induction n as [|n IH]; cbn [replicate]; constructor; [|done].
    cbn [pending]. apply stg_start.
  - induction n as [|n IH]; cbn in *; lia.
Qed.

(** X15: under every schedule, [n] calls of [cacheFirst] with the same
    arguments against a dispatcher that starts without jobs create [n]
    jobs at most, and the handlers run at most once per job created: [n]
    calls never cost more than [n] computations. *)
Theorem calls_bound_jobs_and_runs (n : nat) (s : Store) (a : Ambient)
    (schedule : list label) (c : Config) :
  exec jobHandlers schedule
    (launch n (cacheFirst key rttl jttl jt ps) (mkSystem s [] a [])) = Some c ->
  length (invocations (shared c)) <= length (queue (shared c)) /\
  length (queue (shared c)) <= n.
Proof.
  intros Hexec.
  destruct (budget_exec _ _ _ _ (launch_budget n s a) Hexec)
    as (flags & _ & Hjobs & Hruns).
  pose proof (sum_credit_length (queue (shared c))). lia.
Qed.

End Budget.

(** ** More of what a call does *)

Section Edges.
Context `{R : Runtime}.
Variable E : Env.
Implicit Types (key jt : string) (rttl jttl : number) (ps : Params).
Implicit Types (w : World E).

(** X7: a result that [JSON.stringify] throws on is returned all the same:
    the throw is caught and logged, and [set] is not called, so nothing is
    cached. *)
Theorem unserialisable_result_is_returned key rttl jttl jt ps w result err :
  let r := run E (cacheFirst key rttl jttl jt ps) w in
  result ∈ omap wait_result (trace r) ->
  JSON_stringify result = Rejected err ->
  settled r = Resolved result /\
  omap set_call (trace r) = [] /\
  last (trace r) = Some (Logged ("Error setting cache for key " +:+ key) err).
Proof.
  intros r. subst r.
  unfold cacheFirst, checkCache, onMiss, scheduleJob, enqueueJob, recoverJob,
    completeWith, awaitJob, populateCache, await, lift.
  cbn [bind try_catch run].
  repeat (case_match; cbn); intros Hres Hstr;
    first [ by inversion Hres
          | apply list_elem_of_singleton in Hres; simplify_eq;
            split_and!; congruence ].
Qed.




End Edges.

(** ** The concrete application, run further *)

Lemma cacheFirst_failures_witness :
  let E := system (D := memoryDriver false false false) moreHandlers in
  let w := emptySystem (memoryDriver false false false) ∅ in
  let r := run E (cacheFirst "user:42" 3600%Z 5000%Z "broken" 42) w in
  let e := InternalServerErrorException "Job timed out after 5000 ms" in
  e = InternalServerErrorException "Failed to schedule cache job" \/
  e = InternalServerErrorException
        ("Job timed out after " +:+ number_toString 5000%Z +:+ " ms") \/
  e ∈ omap get_error (trace r) \/
  e ∈ omap lookup_error (trace r).
Proof.
  intros E w r e.
  apply (cacheFirst_failures E "user:42" 3600%Z 5000%Z "broken" 42 w e).
  reflexivity.
Defined.

Lemma cacheFirst_result_provenance_witness :
  let E := system (D := memoryDriver false false false) demoHandlers in
  let w := emptySystem (memoryDriver false false false) ∅ in
  let r := run E (cacheFirst "user:42" 3600%Z 5000%Z "fetchUser" 42) w in
  (exists text,
     trace r = [Called (CacheGet "user:42") (Resolved (Some text))] /\
     JSON_parse text = Resolved 1) \/
  omap wait_result (trace r) = [1].
Proof.
  intros E w.
  apply (cacheFirst_result_provenance E "user:42" 3600%Z 5000%Z "fetchUser"
           42 w 1).
  reflexivity.
Defined.

Lemma existing_job_is_joined_witness :
  let E := system (D := memoryDriver false false false) demoHandlers in
  run E (cacheFirst "user:42" 3600%Z 5000%Z "fetchUser" 42) busySystem =
    run E (cacheFirst "user:42" 3600%Z 5000%Z "other" 7) busySystem /\
  settled (run E (cacheFirst "user:42" 3600%Z 5000%Z "other" 7) busySystem) =
    Resolved 1.
Proof.
  intros E.
  destruct (existing_job_is_joined E "user:42" 3600%Z 5000%Z "other" 7
              "fetchUser" 42 busySystem busySystem
              [Called (CacheGet "user:42") (Resolved None)] busySystem someJob
              eq_refl eq_refl) as (_ & Hsame & _).
  split; [exact Hsame|reflexivity].
Defined.



Lemma second_call_hits_witness :
  let D := memoryDriver false false false in
  let w := emptySystem D ∅ in
  let r1 := run (system demoHandlers)
              (cacheFirst "user:42" 3600%Z 5000%Z "fetchUser" 42) w in
  let r2 := run (system demoHandlers)
              (cacheFirst "user:42" 60%Z 100%Z "other" 7) (world r1) in
  settled r1 = Resolved 1 /\
  settled r2 = Resolved 1 /\
  trace r2 = [Called (CacheGet "user:42") (Resolved (Some "1"))] /\
  invocations (world r2) = invocations w ++ [("fetchUser", 42)] /\
  queue (world r2) = queue (world r1).
Proof.
  intros D w.
  apply (second_call_hits (D := D) demoHandlers "user:42" 3600%Z 5000%Z
           "fetchUser" 42 60%Z 100%Z "other" 7 w None ∅ fetchUser 1 1 "1"
           {["user:42" := "1"]} {["user:42" := "1"]}); reflexivity.
Defined.


Lemma calls_bound_jobs_and_runs_witness :
  let D := memoryDriver false false false in
  let c0 := launch 2 (cacheFirst "user:42" 3600%Z 5000%Z "fetchUser" 42)
              (emptySystem D ∅) in
  exists c,
    exec demoHandlers racySchedule c0 = Some c /\
    length (invocations (shared c)) <= length (queue (shared c)) /\
    length (queue (shared c)) <= 2.
Proof.
  intros D c0.
  assert (match exec demoHandlers racySchedule c0 with
          | Some _ => true
          | None => false
          end = true) as Hruns by (vm_compute; reflexivity).
  destruct (exec demoHandlers racySchedule c0) as [c|] eqn:Hexec;
    [|discriminate].
  exists c. split; [done|].
  exact (calls_bound_jobs_and_runs demoHandlers "user:42" 3600%Z 5000%Z
           "fetchUser" 42 2 ∅ 0 racySchedule c Hexec).
Defined.

Lemma unserialisable_result_is_returned_witness :
  let E := @system pickyRuntime pickyDriver pickyHandlers in
  let w := @mkSystem pickyRuntime pickyDriver ∅ [] 0 [] in
  let r := run E (@cacheFirst pickyRuntime "user:42" 3600%Z 5000%Z "unlucky" 42)
             w in
  settled r = Resolved 13 /\
  omap set_call (trace r) = [] /\
  last (trace r) =
    Some (Logged ("Error setting cache for key " +:+ "user:42")
            (TypeError "Converting circular structure to JSON")).
Proof.
  intros E w.
  apply (@unserialisable_result_is_returned pickyRuntime E "user:42" 3600%Z
           5000%Z "unlucky" 42 w 13
           (TypeError "Converting circular structure to JSON")).
  - change (13 ∈ [13]). apply list_elem_of_here.
  - reflexivity.
Defined.


(** A wait that runs out of time fails its own call only: the job still
    runs, once, and the other call gets its result. *)
Lemma single_flight_with_time_out :
  let D := memoryDriver false false false in
  let c0 := launch 2 (cacheFirst "user:42" 3600%Z 5000%Z "fetchUser" 42)
              (emptySystem D ∅) in
  exists c1 c2,
    exec demoHandlers impatientSchedule.1 c0 = Some c1 /\
    exec demoHandlers impatientSchedule.2 c1 = Some c2 /\
    answer <$> callers c2 =
      [Some (Rejected (timedOut 5000%Z)); Some (Resolved 1)] /\
    invocations (shared c2) = [("fetchUser", 42)].
Proof.
  intros D c0.
  assert (match exec demoHandlers impatientSchedule.1 c0 with
          | Some c1 =>
              match exec demoHandlers impatientSchedule.2 c1 with
              | Some c2 =>
                  Some (forallb awaits_job (callers c1),
                        answer <$> callers c2, invocations (shared c2))
              | None => None
              end
          | None => None
          end = Some (true,
                      [Some (Rejected (timedOut 5000%Z)); Some (Resolved 1)],
                      [("fetchUser", 42)])) as Hrun.
  { vm_compute. reflexivity. }
  destruct (exec demoHandlers impatientSchedule.1 c0) as [c1|] eqn:Hexec1;
    [|discriminate].
  destruct (exec demoHandlers impatientSchedule.2 c1) as [c2|] eqn:Hexec2;
    [|discriminate].
  injection Hrun as Hwait Hanswers Hcalls.
  exists c1, c2.
  split_and!; [reflexivity|exact Hexec2|exact Hanswers|exact Hcalls].
Qed.
